(** * Verification of the p115updatedb mirror engine

    Shallow embedding of the parts of
    [src/modules/p115updatedb/p115updatedb/updatedb.py] and
    [src/p115client/tool/fs_files.py] that maintain the local SQLite mirror
    of a 115 drive: the [data]/[dirlen]/[event] tables and their triggers,
    [kill_items], [sort], [diff_dir]/[iterdir], [iter_fs_files_threaded],
    the write phases of [updatedb_one]/[updatedb_tree] and the per-directory
    decision of the orchestrator [updatedb]. *)

From Stdlib Require Import ZArith Lia Sorting.Sorted Ascii.
From stdpp Require Import base gmap list strings sorting.

Open Scope Z_scope.

(** ** The SQLite store: tables and triggers created by [initdb] *)
Module Store.

(** One row of table [data].  Boolean columns ([is_dir], [is_collect],
    [is_alive], [_triggered]) are [CHECK(x IN (0, 1))] integers in the
    schema; they are [bool] here and turned back into 0/1 with [Z.b2z]
    where the SQL does arithmetic on them.  The column [extra] is never
    written by the code under study and is left out. *)
Record row := mkRow {
  id : Z;
  parent_id : Z;
  pickcode : string;
  sha1 : string;
  name : string;
  size : Z;
  is_dir : bool;
  type : Z;
  ctime : Z;
  mtime : Z;
  is_collect : bool;
  is_alive : bool;
  updated_at : Z;
  _triggered : bool
}.

(** One row of table [dirlen] (keyed by directory id in [db.dirlen]). *)
Record dirlen_row := mkDirlen {
  dir_count : Z;
  file_count : Z;
  tree_dir_count : Z;
  tree_file_count : Z
}.

Definition dirlen_zero : dirlen_row := mkDirlen 0 0 0 0.

(** SQL values occurring in the JSON objects of table [event]. *)
Inductive sqlval := VInt (z : Z) | VText (s : string).

#[global] Instance sqlval_eq_dec : EqDecision sqlval.
Proof. solve_decision. Defined.

(** The operation tags of column [event.fs]. *)
Inductive op := Add | Remove | Revert | Rename | Move.

(** Column [event.fs]: [type], [is_dir] and [op]; the [path]/[path0]
    strings, which only concatenate ancestor names, are left out. *)
Record fs_info := mkFs { fs_type : string; fs_is_dir : bool; fs_op : list op }.

(** One row of table [event]. *)
Record event_row := mkEvent {
  ev_seq : Z;                                  (* _id, AUTOINCREMENT *)
  ev_id : Z;                                   (* id *)
  ev_old : option (list (string * sqlval));    (* old *)
  ev_diff : list (string * sqlval);            (* diff *)
  ev_fs : option fs_info                       (* fs *)
}.

(** The database: the three tables, the next AUTOINCREMENT value of
    [event._id], and whether the connection was initialised with
    [disable_event] (which installs the trigger variants without the
    [INSERT INTO event]). *)
Record db := mkDb {
  data : gmap Z row;
  dirlen : gmap Z dirlen_row;
  event : list event_row;
  next_seq : Z;
  disable_event : bool
}.

Definition set_data (d : db) (m : gmap Z row) : db :=
  mkDb m (dirlen d) (event d) (next_seq d) (disable_event d).
Definition set_dirlen (d : db) (m : gmap Z dirlen_row) : db :=
  mkDb (data d) m (event d) (next_seq d) (disable_event d).
Definition append_event (d : db) (i : Z) (old : option (list (string * sqlval)))
    (diff : list (string * sqlval)) (fs : option fs_info) : db :=
  mkDb (data d) (dirlen d) (event d ++ [mkEvent (next_seq d) i old diff fs])
       (next_seq d + 1) (disable_event d).

(** [initdb] on an empty database: [INSERT OR IGNORE INTO dirlen(id) VALUES (0)]. *)
Definition initdb (disable : bool) : db := mkDb ∅ {[0 := dirlen_zero]} [] 1 disable.

(** SQLite's bound on nested trigger invocations
    (SQLITE_MAX_TRIGGER_DEPTH); exceeding it aborts the statement. *)
Definition trigger_depth : nat := 1000%nat.

(** [UPDATE dirlen SET ... WHERE id = i] with [set] computing the new
    values ([None] when an expression is NULL, which violates the
    [NOT NULL] constraint and aborts the statement), followed by trigger
    [trg_dirlen_update]:

      AFTER UPDATE ON dirlen FOR EACH ROW
      WHEN NEW.id AND (OLD.tree_dir_count != NEW.tree_dir_count
                       OR OLD.tree_file_count != NEW.tree_file_count)
      UPDATE dirlen SET tree_dir_count = tree_dir_count + NEW.tree_dir_count - OLD.tree_dir_count,
                        tree_file_count = tree_file_count + NEW.tree_file_count - OLD.tree_file_count
      WHERE id = (SELECT parent_id FROM data WHERE id=NEW.id);

    The parent is read from table [data]; when [NEW.id] has no data row the
    subquery is NULL and no row matches. *)
Fixpoint dirlen_update (fuel : nat) (i : Z) (set : dirlen_row -> option dirlen_row)
    (d : db) : option db :=
  match dirlen d !! i with
  | None => Some d
  | Some old =>
      new ← set old;
      let d1 := set_dirlen d (<[i := new]> (dirlen d)) in
      if bool_decide (i ≠ 0) &&
         (negb (tree_dir_count old =? tree_dir_count new)
          || negb (tree_file_count old =? tree_file_count new))
      then
        match fuel with
        | O => None
        | S fuel' =>
            match data d1 !! i with
            | None => Some d1
            | Some r =>
                let dd := tree_dir_count new - tree_dir_count old in
                let df := tree_file_count new - tree_file_count old in
                dirlen_update fuel' (parent_id r)
                  (fun p => Some (mkDirlen (dir_count p) (file_count p)
                                   (tree_dir_count p + dd) (tree_file_count p + df))) d1
            end
        end
      else Some d1
  end.

(** A statement of a trigger body guarded by a constant [WHERE] condition. *)
Definition when_ (c : bool) (s : db -> option db) (d : db) : option db :=
  if c then s d else Some d.

(** The JSON_OBJECT of the twelve columns recorded in [event.old] and
    [event.diff], in the order the triggers list them. *)
Definition row_json (r : row) : list (string * sqlval) :=
  [("id", VInt (id r)); ("parent_id", VInt (parent_id r));
   ("pickcode", VText (pickcode r)); ("sha1", VText (sha1 r));
   ("name", VText (name r)); ("size", VInt (size r));
   ("is_dir", VInt (Z.b2z (is_dir r))); ("type", VInt (type r));
   ("ctime", VInt (ctime r)); ("mtime", VInt (mtime r));
   ("is_collect", VInt (Z.b2z (is_collect r)));
   ("is_alive", VInt (Z.b2z (is_alive r)))].

(** [diff]: JSON_GROUP_OBJECT(key, new.value) over the keys whose old and
    new values differ. *)
Fixpoint json_diff (o n : list (string * sqlval)) : list (string * sqlval) :=
  match o, n with
  | (k, vo) :: o', (_, vn) :: n' =>
      if decide (vo = vn) then json_diff o' n' else (k, vn) :: json_diff o' n'
  | _, _ => []
  end.

Fixpoint json_get (k : string) (j : list (string * sqlval)) : option sqlval :=
  match j with
  | [] => None
  | (k', v) :: j' => if decide (k = k') then Some v else json_get k j'
  end.

(** The [op] array of [trg_data_update]:
      CASE WHEN diff->>'is_alive' THEN 'revert' END,
      CASE WHEN diff->>'is_alive' = 0 THEN 'remove' END,
      CASE WHEN diff->>'name' IS NOT NULL THEN 'rename' END,
      CASE WHEN diff->>'parent_id' IS NOT NULL THEN 'move' END *)
Definition update_ops (diff : list (string * sqlval)) : list op :=
  (match json_get "is_alive" diff with Some (VInt v) => if decide (v ≠ 0) then [Revert] else [] | _ => [] end) ++
  (match json_get "is_alive" diff with Some (VInt 0) => [Remove] | _ => [] end) ++
  (match json_get "name" diff with Some _ => [Rename] | None => [] end) ++
  (match json_get "parent_id" diff with Some _ => [Move] | None => [] end).

(** The [INSERT INTO event] of [trg_data_insert] (absent with [disable_event]). *)
Definition log_insert (new : row) (d : db) : db :=
  if disable_event d then d
  else append_event d (id new) None (row_json new) (Some (mkFs "insert" (is_dir new) [Add])).

(** The [INSERT INTO event] of [trg_data_update] (absent with [disable_event]):
    one row when the JSON objects of [OLD] and [NEW] differ
    ([WHERE data.old != data.new]); column [fs] is NULL when the op array is
    empty ([WHERE JSON_ARRAY_LENGTH(op.op)] selects no row). *)
Definition log_update (old new : row) (d : db) : db :=
  if disable_event d then d
  else
    let jo := row_json old in
    let jn := row_json new in
    if decide (jo = jn) then d
    else
      let df := json_diff jo jn in
      let ops := update_ops df in
      let fs := match ops with [] => None | _ => Some (mkFs "update" (is_dir new) ops) end in
      append_event d (id new) (Some jo) df fs.

(** Trigger [trg_data_insert] (AFTER INSERT ON data). *)
Definition trg_data_insert (fuel : nat) (new : row) (d : db) : option db :=
  let isd := Z.b2z (is_dir new) in
  (* INSERT OR REPLACE INTO dirlen(id) SELECT NEW.id WHERE NEW.is_dir *)
  let d1 := if is_dir new then set_dirlen d (<[id new := dirlen_zero]> (dirlen d)) else d in
  d2 ← dirlen_update fuel (parent_id new)
         (fun p => Some (mkDirlen (dir_count p + isd) (file_count p + 1 - isd)
                                  (tree_dir_count p + isd) (tree_file_count p + 1 - isd))) d1;
  Some (log_insert new d2).

(** [(SELECT c FROM dirlen WHERE id = i)]: NULL when there is no row. *)
Definition sel (f : dirlen_row -> Z) (i : Z) (d : db) : option Z := f <$> dirlen d !! i.

(** The bookkeeping columns written by [trg_data_update]'s first statement. *)
Definition bookkeep (now : Z) (r : row) : row :=
  mkRow (id r) (parent_id r) (pickcode r) (sha1 r) (name r) (size r) (is_dir r)
    (type r) (ctime r) (mtime r) (is_collect r) (is_alive r) now true.

(** Trigger [trg_data_update] (AFTER UPDATE ON data WHEN NOT NEW._triggered),
    given the [OLD] and [NEW] rows of the triggering update. *)
Definition trg_data_update (fuel : nat) (now : Z) (old new : row) (d : db) : option db :=
  (* UPDATE data SET updated_at = now, _triggered=1 WHERE id = NEW.id;
     this nested update passes trg_data_before_update (mtime unchanged)
     and does not fire trg_data_update again (NEW._triggered = 1). *)
  let d0 :=
    match data d !! id new with
    | Some r => set_data d (<[id new := bookkeep now r]> (data d))
    | None => d
    end in
  let same_parent := bool_decide (parent_id old = parent_id new) in
  d1 ← when_ (is_alive old && negb (is_dir old) && negb (is_alive new && same_parent))
          (dirlen_update fuel (parent_id old)
             (fun p => Some (mkDirlen (dir_count p) (file_count p - 1)
                                      (tree_dir_count p) (tree_file_count p - 1)))) d0;
  d2 ← when_ (is_alive old && is_dir old && negb (is_alive new && same_parent))
          (fun dd =>
             dc ← sel dir_count (id old) dd;
             tdc ← sel tree_dir_count (id old) dd;
             tfc ← sel tree_file_count (id old) dd;
             dirlen_update fuel (parent_id old)
               (fun p => Some (mkDirlen (dir_count p - 1 - dc) (file_count p)
                                        (tree_dir_count p - 1 - tdc) (tree_file_count p - tfc))) dd) d1;
  d3 ← when_ (is_alive new && negb (is_dir old) && negb (is_alive old && same_parent))
          (dirlen_update fuel (parent_id new)
             (fun p => Some (mkDirlen (dir_count p) (file_count p + 1)
                                      (tree_dir_count p) (tree_file_count p + 1)))) d2;
  d4 ← when_ (is_alive new && is_dir old && negb (is_alive old && same_parent))
          (fun dd =>
             dc ← sel dir_count (id old) dd;
             tdc ← sel tree_dir_count (id old) dd;
             tfc ← sel tree_file_count (id old) dd;
             dirlen_update fuel (parent_id new)
               (fun p => Some (mkDirlen (dir_count p + 1 + dc) (file_count p)
                                        (tree_dir_count p + 1 + tdc) (tree_file_count p + tfc))) dd) d3;
  Some (log_update old new d4).

(** An [UPDATE] of one [data] row from [old] to [new]: trigger
    [trg_data_before_update] ([WHEN NEW.mtime < OLD.mtime THEN RAISE(IGNORE)])
    drops the row change, otherwise the row is written and
    [trg_data_update] runs unless [NEW._triggered]. *)
Definition update_row (now : Z) (old new : row) (d : db) : option db :=
  if decide (mtime new < mtime old) then Some d
  else
    let d1 := set_data d (<[id new := new]> (data d)) in
    if _triggered new then Some d1 else trg_data_update trigger_depth now old new d1.

(** An item passed to [upsert_items] (package sqlitetools): the columns it
    supplies.  [upsert_items(con, items, extras={"_triggered": 0})] runs, per
    item, [INSERT INTO data(cols) VALUES (...) ON CONFLICT(id) DO UPDATE SET
    c = excluded.c] for every supplied column [c], [_triggered] included. *)
Record item := mkItem {
  i_id : Z;
  i_parent_id : option Z;
  i_pickcode : option string;
  i_sha1 : option string;
  i_name : option string;
  i_size : option Z;
  i_is_dir : option bool;
  i_type : option Z;
  i_ctime : option Z;
  i_mtime : option Z;
  i_is_collect : option bool;
  i_is_alive : option bool
}.

Definition upd {A} (o : option A) (a : A) : A := match o with Some x => x | None => a end.

(** The [NEW] row of the [DO UPDATE] branch: supplied columns replace the
    stored ones, [_triggered] is set to 0 by the extras; [NEW.id] is the
    conflicting key [excluded.id]. *)
Definition merge (old : row) (it : item) : row :=
  mkRow (i_id it) (upd (i_parent_id it) (parent_id old)) (upd (i_pickcode it) (pickcode old))
    (upd (i_sha1 it) (sha1 old)) (upd (i_name it) (name old)) (upd (i_size it) (size old))
    (upd (i_is_dir it) (is_dir old)) (upd (i_type it) (type old)) (upd (i_ctime it) (ctime old))
    (upd (i_mtime it) (mtime old)) (upd (i_is_collect it) (is_collect old))
    (upd (i_is_alive it) (is_alive old)) (updated_at old) false.

(** The inserted row: the column defaults of [CREATE TABLE data]; the
    columns [parent_id], [name] and [is_dir] have no default and are NOT
    NULL, so the insert fails without them. *)
Definition insert_row (now : Z) (it : item) : option row :=
  pid ← i_parent_id it; nm ← i_name it; isd ← i_is_dir it;
  Some (mkRow (i_id it) pid (upd (i_pickcode it) "") (upd (i_sha1 it) "") nm
          (upd (i_size it) 0) isd (upd (i_type it) 0) (upd (i_ctime it) 0)
          (upd (i_mtime it) 0) (upd (i_is_collect it) false) (upd (i_is_alive it) true)
          now false).

(** One item of [upsert_items]. *)
Definition upsert_row (now : Z) (it : item) (d : db) : option db :=
  match data d !! i_id it with
  | Some old => update_row now old (merge old it) d
  | None =>
      new ← insert_row now it;
      trg_data_insert trigger_depth new (set_data d (<[i_id it := new]> (data d)))
  end.

(** [upsert_items]: the items one after the other; an error aborts. *)
Fixpoint upsert_items (now : Z) (its : list item) (d : db) : option db :=
  match its with
  | [] => Some d
  | it :: its' => d1 ← upsert_row now it d; upsert_items now its' d1
  end.

(** [kill_items] on one id: [UPDATE data SET is_alive=0 WHERE id = i].
    The statement does not touch column [_triggered]. *)
Definition kill_row (now : Z) (i : Z) (d : db) : option db :=
  match data d !! i with
  | None => Some d
  | Some old =>
      update_row now old
        (mkRow i (parent_id old) (pickcode old) (sha1 old) (name old) (size old)
           (is_dir old) (type old) (ctime old) (mtime old) (is_collect old) false
           (updated_at old) (_triggered old)) d
  end.

(** [kill_items(con, ids)]: [UPDATE data SET is_alive=0 WHERE id IN (...)];
    the rows are visited in the order of [ids] (callers pass ids of
    distinct rows). *)
Fixpoint kill_items (now : Z) (ids : list Z) (d : db) : option db :=
  match ids with
  | [] => Some d
  | i :: ids' => d1 ← kill_row now i d; kill_items now ids' d1
  end.

(** The subtree counts the [dirlen] invariant speaks of: the alive rows
    whose parent chain reaches directory [D] through alive directories
    (root 0 has no row); the walk is bounded by the number of rows. *)
Fixpoint under (fuel : nat) (m : gmap Z row) (p D : Z) : bool :=
  bool_decide (p = D) ||
  match fuel with
  | O => false
  | S f => match m !! p with
           | Some r => is_alive r && under f m (parent_id r) D
           | None => false
           end
  end.

Definition alive_tree_counts (d : db) (D : Z) : Z * Z :=
  let rows := map snd (map_to_list (data d)) in
  let desc := filter (fun r => is_alive r && under (length rows) (data d) (parent_id r) D) rows in
  (Z.of_nat (length (filter (fun r => is_dir r) desc)),
   Z.of_nat (length (filter (fun r => negb (is_dir r)) desc))).

End Store.

(** ** The [sort] helper of [updatedb.py] *)
Module SortHelper.

Section sort.
(** The records are dicts; only their ["id"] and ["parent_id"] keys are read. *)
Context {A : Type} (get_id get_parent : A -> Z).

(** [d = {a["id"]: a["parent_id"] for a in data}]: a later record with the
    same id overwrites an earlier one. *)
Definition parent_map (data : list A) : gmap Z Z :=
  foldl (fun m a => <[get_id a := get_parent a]> m) ∅ data.

(** [depth(id)]: [1 + depth(d[id])] if [id in d], else 0. The memo
    [depth_d] is never written, so it is always empty and is left out. The
    recursion is bounded by [fuel]; running out of fuel stands for the
    [RecursionError] of an endless recursion. *)
Fixpoint depth (d : gmap Z Z) (fuel : nat) (i : Z) : option nat :=
  match d !! i with
  | None => Some 0%nat
  | Some p => match fuel with
              | O => None
              | S f => S <$> depth d f p
              end
  end.

(** Does a record with key [kx] go before one with key [ky]? *)
Definition before (reverse : bool) (kx ky : nat) : bool :=
  if reverse then (ky <? kx)%nat else (kx <? ky)%nat.

(** [list.sort(key=..., reverse=...)] is stable, also with [reverse=True]:
    an insertion sort that puts each record after every earlier record it
    does not go before. *)
Fixpoint insert_key (reverse : bool) (x : nat * A) (l : list (nat * A)) : list (nat * A) :=
  match l with
  | [] => [x]
  | y :: l' => if before reverse x.1 y.1 then x :: l else y :: insert_key reverse x l'
  end.

Definition isort (reverse : bool) (l : list (nat * A)) : list (nat * A) :=
  foldl (fun acc x => insert_key reverse x acc) [] l.

(** [sort(data, reverse)]: the key of each record is [depth(a["id"])],
    computed before the list is reordered; a chain through the map never
    revisits a key unless it is a cycle, so [length data] recursive steps
    suffice when the map is acyclic. *)
Definition sort (data : list A) (reverse : bool) : option (list A) :=
  let d := parent_map data in
  kl ← mapM (fun a => (fun k => (k, a)) <$> depth d (length data) (get_id a)) data;
  Some (snd <$> isort reverse kl).

End sort.
End SortHelper.

(** ** The orchestrator loop of [updatedb] *)
Module Orchestrator.

(** What the statistics future of a directory ends with: the count
    returned by [get_file_count], a timeout-class exception, or any other
    exception. The flag of [PTimeout] tells whether the timeout handler ran
    before the loop [for i, id in enumerate(gen)] bound [id] (possible only
    for the probes of [top_ids], submitted before the loop). *)
Inductive probe := PCount (n : Z) | PTimeout (unbound : bool) | PError.

(** The value of [get_file_count_in_tree]: a count or [float("inf")]. *)
Inductive ext := Fin (n : Z) | Inf.

(** [get_file_count_in_tree(cid)]; [logger] tells whether [logger is not
    None]. A timeout becomes [inf], except that with a logger the handler
    formats the enclosing loop variable [id], which raises [NameError]
    while the loop has not bound it; any other exception is re-raised
    ([None]). *)
Definition get_file_count_in_tree (logger : bool) (p : probe) : option ext :=
  match p with
  | PCount n => Some (Fin n)
  | PTimeout unbound => if logger && unbound then None else Some Inf
  | PError => None
  end.

(** Outcome of [updatedb_one] or [updatedb_tree] for one directory; on
    success, the direct child directories [iter_descendants_fast(con, id,
    max_depth=1)] then yields. *)
Inductive outcome := ROk (children : list Z) | RNotFound | RNotADir | RBusy | RFatal.

(** [updatedb_one] ([One]) or [updatedb_tree] ([Tree]). *)
Inductive mode := One | Tree.

Inductive action := Reconcile (m : mode) (id : Z) | Kill (id : Z).

(** The loop state: the [bfs_gen] queue (first-in first-out; [send(x)]
    puts [x] at its back), the [seen] set and the calls made so far. *)
Record ostate := mkO { queue : list Z; seen : gset Z; log : list action }.

Inductive result := Continue (s : ostate) | Abort (s : ostate) | Finished (s : ostate).

Definition state_of (r : result) : ostate :=
  match r with Continue s | Abort s | Finished s => s end.

(** The choice of [need_to_split_tasks] for a dequeued id: [None] when
    [cache_futures[id].result()] raises, [Some None] for the [count <= 0]
    branch ([seen_add(id); continue]), else [Some (Some split)]. *)
Definition split_decision (logger : bool) (threshold : Z) (recursive : bool) (p : probe)
    : option (option bool) :=
  if decide (threshold = 0) then Some (Some true)
  else if decide (threshold < 0) then Some (Some false)
  else if recursive then
    match get_file_count_in_tree logger p with
    | None => None
    | Some (Fin c) => if decide (c <= 0) then Some None
                      else Some (Some (bool_decide (c > threshold)))
    | Some Inf => Some (Some true)
    end
  else Some (Some true).

(** One iteration of [for i, id in enumerate(gen)]; [logger] tells whether
    [logger is not None], [probes id] is the statistics future of [id] and
    [recon id m] the outcome of reconciling [id] in mode [m]. Without a
    logger, the unguarded [logger.info(...)] before the call raises
    [AttributeError], which the bare [except:] re-raises. *)
Definition step (logger : bool) (threshold : Z) (recursive : bool) (probes : Z -> probe)
    (recon : Z -> mode -> outcome) (st : ostate) : result :=
  match queue st with
  | [] => Finished st
  | id :: q =>
      if decide (id ∈ seen st) then Continue (mkO q (seen st) (log st))
      else
        match split_decision logger threshold recursive (probes id) with
        | None => Abort (mkO q (seen st) (log st))
        | Some None => Continue (mkO q ({[id]} ∪ seen st) (log st))
        | Some (Some split) =>
            if negb logger then Abort (mkO q (seen st) (log st)) else
            let m := if split || negb recursive then One else Tree in
            let lg := log st ++ [Reconcile m id] in
            match recon id m with
            | ROk children =>
                Continue (mkO (q ++ (if recursive && split then children else []))
                              ({[id]} ∪ seen st) lg)
            | RNotFound => Continue (mkO q (seen st) (lg ++ [Kill id]))
            | RNotADir => Continue (mkO q (seen st) lg)
            | RBusy => Continue (mkO (q ++ [id]) (seen st) lg)
            | RFatal => Abort (mkO q (seen st) lg)
            end
        end
  end.

End Orchestrator.

(** ** The paginators of [fs_files.py] *)
Module Paginator.

(** The fields of a listing response that the paginators read: ["data"],
    ["count"], ["offset"] and the cid of the last entry of ["path"]. *)
Record resp (A : Type) := mkResp {
  r_data : list A; r_count : Z; r_offset : Z; r_path_cid : Z }.
Arguments mkResp {A}. Arguments r_data {A}. Arguments r_count {A}.
Arguments r_offset {A}. Arguments r_path_cid {A}.

Inductive err := ENotADir | ENotFound | EFatal.

Section threaded.
Context {A : Type}.

(** What [future.result(max(0, ts + cooldown - time()))] does when it is
    called: the wait ends with [TimeoutError], the response arrives, the
    fetch failed with a timeout-class error without an error status
    (retried), or with any other error (re-raised). *)
Inductive ev := EvTimeout | EvReady | EvRetry | EvFatal.

Record pstate := mkP {
  p_off : Z;                       (* payload["offset"] *)
  count : Z;
  cur : nat * Z;                   (* future: index of its request, payload offset *)
  offset : Z;
  dq : list ((nat * Z) * Z);       (* the deque of (future, offset) *)
  nfetch : nat;                    (* requests issued so far *)
  out : list (resp A)              (* the responses yielded so far *)
}.

Inductive pres := PDone (out : list (resp A)) | PRaise (e : err) (out : list (resp A))
  | PStuck (st : pstate).

(** [fetch k o] is the response of the [k]-th request, made with payload
    offset [o]. [cid] is the listed directory and [page_size] the step of
    the offsets (after the clamp to 1150 for the web apps). *)
Fixpoint threaded_run (fetch : nat -> Z -> resp A) (cid page_size : Z)
    (sched : list ev) (st : pstate) : pres :=
  match sched with
  | [] => PStuck st
  | e :: es =>
      match e with
      | EvTimeout =>
          let po := p_off st + page_size in
          if (count st <? 0) || (po <? count st) then
            threaded_run fetch cid page_size es
              (mkP po (count st) (cur st) (offset st)
                   (dq st ++ [((nfetch st, po), po)]) (S (nfetch st)) (out st))
          else
            threaded_run fetch cid page_size es
              (mkP po (count st) (cur st) (offset st) (dq st) (nfetch st) (out st))
      | EvFatal => PRaise EFatal (out st)
      | EvRetry =>
          threaded_run fetch cid page_size es
            (mkP (p_off st) (count st) (nfetch st, offset st) (offset st) (dq st)
                 (S (nfetch st)) (out st))
      | EvReady =>
          let r := fetch (cur st).1 (cur st).2 in
          if negb (cid =? 0) && negb (r_path_cid r =? cid) then
            PRaise (if count st <? 0 then ENotADir else ENotFound) (out st)
          else
          let out' := out st ++ [r] in
          let c := r_count r in
          match dq st with
          | (f, o) :: dq' =>
              threaded_run fetch cid page_size es
                (mkP (p_off st) c f o dq' (nfetch st) out')
          | [] =>
              if (c =? 0) || (c <=? offset st) || negb (offset st =? r_offset r)
                 || (c <=? offset st + Z.of_nat (length (r_data r)))
              then PDone out'
              else
                let o := offset st + page_size in
                if c <=? o then PDone out'
                else threaded_run fetch cid page_size es
                       (mkP o c (nfetch st, o) o [] (S (nfetch st)) out')
          end
      end
  end.

(** The state after [future = make_future(); offset = payload["offset"]]. *)
Definition threaded_init (off0 : Z) : pstate := mkP off0 (-1) (0%nat, off0) off0 [] 1 [].

(** [iter_fs_files] (no look-ahead): the first request is made with limit
    [first_page_size], the next ones with [page_size]; [fetch k o lim] is
    the response of the [k]-th request. The [DataError] retry of
    [get_files] is not modelled (every request answers). *)
Fixpoint plain_run (fetch : nat -> Z -> Z -> resp A) (cid page_size : Z)
    (fuel k : nat) (off lim : Z) : option (err + list (resp A)) :=
  match fuel with
  | O => None
  | S fuel' =>
      let r := fetch k off lim in
      if negb (cid =? 0) && negb (r_path_cid r =? cid) then Some (inl ENotADir)
      else
        let off' := off + Z.of_nat (length (r_data r)) in
        if r_count r <=? off' then Some (inr [r])
        else match plain_run fetch cid page_size fuel' (S k) off' page_size with
             | Some (inr rs) => Some (inr (r :: rs))
             | x => x
             end
  end.

End threaded.

(** Modelled from the spec: a listing that does not change while it is
    paged; the page at offset [o] holds the next [page_size] items. *)
Definition static_listing {A} (items : list A) (cid page_size : Z) (o : Z) : resp A :=
  mkResp (take (Z.to_nat page_size) (drop (Z.to_nat o) items))
    (Z.of_nat (length items)) o cid.

End Paginator.

(** ** The write phases of [updatedb_one] and [updatedb_tree] *)
Module Writes.
Import Store.

(** A sqlite3 connection: the committed database and the database as the
    open transaction sees it. *)
Record conn := mkConn { committed : db; working : db }.

Inductive wres := WOk (c : conn) | WErr (c : conn).

Definition wbind (r : wres) (k : conn -> wres) : wres :=
  match r with WOk c => k c | WErr c => WErr c end.

(** [execute(con, ..., commit=True)] of [sqlitetools]: the statement runs
    in the open transaction, which is then committed; a failing statement
    raises, its own changes are undone and nothing is committed. *)
Definition exec_commit (stmt : db -> option db) (c : conn) : wres :=
  match stmt (working c) with
  | Some d => WOk (mkConn d d)
  | None => WErr c
  end.

(** [with transact(con) as cur: ...] of [sqlitetools]: the body runs in one
    transaction, committed at the end, rolled back if the body raises. *)
Definition transact (body : db -> option db) (c : conn) : wres :=
  match body (working c) with
  | Some d => WOk (mkConn d d)
  | None => WErr (mkConn (committed c) (committed c))
  end.

(** [kill_items(con, ids)]; [fault] stands for the statement failing
    (locked database, I/O error, ...). *)
Definition kill_stmt (fault : bool) (now : Z) (ids : list Z) (d : db) : option db :=
  if fault then None else kill_items now ids d.

(** The writes of [updatedb_one] (after [diff_dir]). *)
Definition one_writes (now : Z) (to_upsert : list item) (to_remove : list Z)
    (fault : bool) (c : conn) : wres :=
  transact (fun d =>
    d1 ← (if bool_decide (to_upsert = []) then Some d else upsert_items now to_upsert d);
    if bool_decide (to_remove = []) then Some d1 else kill_stmt fault now to_remove d1) c.

(** The writes of [updatedb_tree] (after [diff_dir] and [load_ancestors]):
    each statement is committed on its own. *)
Definition tree_writes (now : Z) (ancestors to_upsert to_recall : list item)
    (to_remove : list Z) (fault : bool) (c : conn) : wres :=
  wbind
    (if bool_decide (to_upsert ++ to_recall = []) then WOk c
     else wbind (exec_commit (upsert_items now ancestors) c) (fun c1 =>
          wbind (exec_commit (upsert_items now to_upsert) c1) (fun c2 =>
          exec_commit (upsert_items now to_recall) c2)))
    (fun c3 => if bool_decide (to_remove = []) then WOk c3
               else exec_commit (kill_stmt fault now to_remove) c3).

End Writes.

(** ** [iterdir] and [diff_dir] *)
Module Reconcile.

(** The keys of a normalized attribute that [iterdir] and [diff_dir] read. *)
Record attr := mkAttr { a_id : Z; a_mtime : Z; a_is_dir : bool }.

(** [BusyOSError] of [iterdir], the [StopIteration] of [next(his_it)]
    outside the loop, and an empty page iterator. *)
Inductive derr := Busy | StopIter | NoPage.

(** [while dirs and dirs[0]["mtime"] >= mtime: yield pop()]: the popped
    directories and what is left in [dirs]. *)
Fixpoint flush_dirs (m : Z) (dirs : list attr) : list attr * list attr :=
  match dirs with
  | [] => ([], [])
  | d :: ds => if decide (m <= a_mtime d)
               then let fr := flush_dirs m ds in (d :: fr.1, fr.2)
               else ([], dirs)
  end.

(** The [fix_order] loop of [iterate()] over the items of all pages: each
    yielded item is paired with the [seen] set at the moment it is
    yielded (the caller reads that shared set while the generator is
    suspended); the last component is [seen] once the generator is done. *)
Fixpoint fix_order (items : list attr) (seen : gset Z) (dirs : list attr)
    : derr + (list (attr * gset Z) * gset Z) :=
  match items with
  | [] => inr ((fun d => (d, seen)) <$> dirs, seen)
  | a :: items' =>
      if decide (a_id a ∈ seen) then inl Busy
      else
        let seen' := {[a_id a]} ∪ seen in
        if a_is_dir a then fix_order items' seen' (dirs ++ [a])
        else
          let fr := flush_dirs (a_mtime a) dirs in
          match fix_order items' seen' fr.2 with
          | inl e => inl e
          | inr (out, sf) => inr (((fun d => (d, seen')) <$> fr.1) ++ (a, seen') :: out, sf)
          end
  end.

(** [iterdir(..., fix_order=True)] on the pages the paginator yields:
    [count] is the ["count"] of the first page. *)
Definition iterdir (pages : list (Paginator.resp attr))
    : derr + (Z * list (attr * gset Z) * gset Z) :=
  match pages with
  | [] => inl NoPage
  | p0 :: _ =>
      match fix_order (mjoin (Paginator.r_data <$> pages)) ∅ [] with
      | inl e => inl e
      | inr (out, sf) => inr (Paginator.r_count p0, out, sf)
      end
  end.

(** The variables of the merge loop of [diff_dir]: [remains], the current
    group [(his_mtime, his_ids)], the groups [his_it] has not reached, the
    upsert list and the remove list. *)
Record mstate := mkM {
  remains : Z; his : Z * gset Z; his_rest : list (Z * gset Z);
  ups : list attr; rem : list Z }.

(** [while his_mtime > cur_mtime: remove_extend(his_ids - seen);
    remains -= len(his_ids); his_mtime, his_ids = next(his_it)]; the
    boolean tells whether [next(his_it)] raised [StopIteration] (the
    variables then keep the last group). *)
Fixpoint advance (m : Z) (seen : gset Z) (h : Z * gset Z) (rest : list (Z * gset Z))
    (r : Z) (rm : list Z) : bool * ((Z * gset Z) * list (Z * gset Z) * Z * list Z) :=
  if decide (m < h.1) then
    let rm' := rm ++ elements (h.2 ∖ seen) in
    let r' := r - Z.of_nat (size h.2) in
    match rest with
    | [] => (true, (h, [], r', rm'))
    | h' :: rest' => advance m seen h' rest' r' rm'
    end
  else (false, (h, rest, r, rm)).

(** Which [return] of [diff_dir] was taken: the early one inside the loop
    or the one after it. *)
Inductive tag := Early | Full.

(** [for n, attr in enumerate(data_it, 1): ...] and what follows the loop;
    [n] is the index of the previous item and [sf] the final [seen]. *)
Fixpoint merge_loop (count n : Z) (stream : list (attr * gset Z)) (sf : gset Z)
    (st : mstate) : tag * list attr * list Z :=
  match stream with
  | [] =>
      (Full, ups st,
       if decide (remains st = 0) then rem st
       else rem st ++ elements ((his st).2 ∖ sf)
              ++ mjoin ((fun g => elements (g.2 ∖ sf)) <$> his_rest st))
  | (a, seen) :: stream' =>
      if decide (remains st = 0) then
        merge_loop count (n + 1) stream' sf
          (mkM (remains st) (his st) (his_rest st) (ups st ++ [a]) (rem st))
      else
        match advance (a_mtime a) seen (his st) (his_rest st) (remains st) (rem st) with
        | (true, (h, rest, r, rm)) =>
            merge_loop count (n + 1) stream' sf (mkM r h rest (ups st) rm)
        | (false, (h, rest, r, rm)) =>
            if bool_decide (h.1 = a_mtime a) && bool_decide (a_id a ∈ h.2) then
              if decide (n + 1 + (r - 1) = count) then (Early, ups st, rm)
              else merge_loop count (n + 1) stream' sf
                     (mkM (r - 1) (h.1, h.2 ∖ {[a_id a]}) rest (ups st) rm)
            else merge_loop count (n + 1) stream' sf (mkM r h rest (ups st ++ [a]) rm)
        end
  end.

(** The part of [diff_dir] after [select_mtime_groups] has given
    [remains] and [groups]. *)
Definition diff_dir_merge (count remains : Z) (groups : list (Z * gset Z))
    (stream : list (attr * gset Z)) (sf : gset Z) : derr + (tag * list attr * list Z) :=
  if decide (remains = 0) then inr (merge_loop count 0 stream sf (mkM 0 (0, ∅) [] [] []))
  else match groups with
       | [] => inl StopIter
       | g :: rest => inr (merge_loop count 0 stream sf (mkM remains g rest [] []))
       end.

(** [diff_dir]: [full] is [refresh or not (dirlen and (dir_count or
    file_count))], in which case every listed item is upserted. *)
Definition diff_dir (full : bool) (pages : list (Paginator.resp attr)) (remains : Z)
    (groups : list (Z * gset Z)) : derr + (tag * list attr * list Z) :=
  match iterdir pages with
  | inl e => inl e
  | inr (count, stream, sf) =>
      if full then inr (Full, fst <$> stream, [])
      else diff_dir_merge count remains groups stream sf
  end.

End Reconcile.

(** ** The loop of [updatedb] over the [bfs_gen] queue *)
Module OrchestratorRun.
Import Orchestrator.

(** [for i, id in enumerate(gen): ...]: iterations of [step] until the
    queue is exhausted or an exception escapes; [fuel] bounds the number
    of iterations (a run that has not ended yet is [Continue]). *)
Fixpoint run (logger : bool) (threshold : Z) (recursive : bool) (probes : Z -> probe)
    (recon : Z -> mode -> outcome) (fuel : nat) (st : ostate) : result :=
  match fuel with
  | O => Continue st
  | S f =>
      match step logger threshold recursive probes recon st with
      | Continue st' => run logger threshold recursive probes recon f st'
      | r => r
      end
  end.

End OrchestratorRun.

(** ** [parse_top_iter] of [updatedb] *)
Module TopDirs.

(** The [top_dirs] argument: an [int], a [str], or an iterable of them. *)
#[warnings="-register-all"] Inductive top := TInt (n : Z) | TStr (s : string) | TIter (l : list top).

(** A character of [string.digits]. *)
Definition is_digit (c : ascii) : bool :=
  (48 <=? nat_of_ascii c)%nat && (nat_of_ascii c <=? 57)%nat.

Fixpoint lstrip_digits (s : string) : string :=
  match s with
  | EmptyString => EmptyString
  | String c s' => if is_digit c then lstrip_digits s' else s
  end.

Fixpoint rstrip_digits (s : string) : string :=
  match s with
  | EmptyString => EmptyString
  | String c s' =>
      let r := rstrip_digits s' in
      if String.eqb r "" && is_digit c then EmptyString else String c r
  end.

(** [top.strip(digits)]. *)
Definition strip_digits (s : string) : string := rstrip_digits (lstrip_digits s).

(** [int(top)] on a string of digits: its decimal value. *)
Fixpoint dec_from (acc : Z) (s : string) : Z :=
  match s with
  | EmptyString => acc
  | String c s' => dec_from (10 * acc + (Z.of_nat (nat_of_ascii c) - 48)) s'
  end.

Definition int_of_str (s : string) : Z := dec_from 0 s.

(** [parse_top_iter(top)]; [resolve] is [get_id_to_path(client, top, ...)],
    [None] standing for its [FileNotFoundError], which is logged and
    yields nothing. *)
Fixpoint parse_top_iter (resolve : string -> option Z) (t : top) : list Z :=
  match t with
  | TInt n => [n]
  | TStr s =>
      if bool_decide (s ∈ ["" ; "0"; "."; ".."; "/"]) then [0]
      else if negb (String.prefix "0" s || negb (String.eqb (strip_digits s) ""))
      then [int_of_str s]
      else match resolve s with Some i => [i] | None => [] end
  | TIter l =>
      (fix go (l : list top) : list Z :=
         match l with [] => [] | t' :: l' => parse_top_iter resolve t' ++ go l' end) l
  end.

(** Python's [str] of a non-negative [int]: its decimal digits, without
    leading zeros; [fuel] bounds the number of divisions by 10. *)
Fixpoint str_aux (fuel : nat) (n : Z) : string :=
  match fuel with
  | O => EmptyString
  | S f =>
      if n <? 10 then String (ascii_of_nat (48 + Z.to_nat n)) EmptyString
      else String.append (str_aux f (n / 10))
             (String (ascii_of_nat (48 + Z.to_nat (n mod 10))) EmptyString)
  end.

Definition str_of_Z (n : Z) : string := str_aux (S (Z.to_nat n)) n.

End TopDirs.

(** ** [is_timeouterror] of [updatedb.py] and of [fs_files.py] *)
Module Timeouts.

(** A class: its identity and its [__name__]. *)
Record cls := mkCls { cls_uid : Z; cls_name : string }.

#[global] Instance cls_eq_dec : EqDecision cls.
Proof. solve_decision. Defined.

(** The builtin classes the two functions compare with. *)
Definition Exception : cls := mkCls 1 "Exception".
Definition TimeoutError : cls := mkCls 2 "TimeoutError".

(** [sub in s] for strings. *)
Fixpoint contains (sub s : string) : bool :=
  String.prefix sub s ||
  match s with EmptyString => false | String _ s' => contains sub s' end.

(** [for exctype in exctype.mro(): if exctype is Exception: break;
    if "Timeout" in exctype.__name__: return True]; [return False]. *)
Fixpoint mro_walk (mro : list cls) : bool :=
  match mro with
  | [] => false
  | c :: mro' =>
      if decide (c = Exception) then false
      else if contains "Timeout" (cls_name c) then true
      else mro_walk mro'
  end.

(** [is_timeouterror] of [fs_files.py], on [type(exc).mro()]. *)
Definition is_timeouterror_fs (mro : list cls) : bool := mro_walk mro.

(** [is_timeouterror] of [updatedb.py]: [isinstance(exc, TimeoutError)]
    first (the MRO of [type(exc)] contains [TimeoutError]). *)
Definition is_timeouterror (mro : list cls) : bool :=
  if bool_decide (TimeoutError ∈ mro) then true else mro_walk mro.

End Timeouts.

(** ** The [DataError] retry of [get_files] in [iter_fs_files] *)
Module GetFiles.

Inductive gres (B : Type) := GOk (r : B) (k : nat) (lim : Z) | GDataError (k : nat) (lim : Z)
  | GStuck.
Arguments GOk {B}. Arguments GDataError {B}. Arguments GStuck {B}.

(** [get_files(payload)]: [answer k lim] is the answer to the [k]-th request,
    made with [payload["limit"] = lim]; [None] is a [DataError]. The result
    carries the index of the next request and the limit left in [payload]. *)
Fixpoint get_files {B} (answer : nat -> Z -> option B) (fuel k : nat) (lim : Z) : gres B :=
  match fuel with
  | O => GStuck
  | S f =>
      match answer k lim with
      | Some r => GOk r (S k) lim
      | None =>
          if lim <=? 1150 then GDataError (S k) lim
          else get_files answer f (S k) (if lim - 1000 <? 1150 then 1150 else lim - 1000)
      end
  end.

End GetFiles.

(** ** Concrete inputs used by the examples and witnesses *)
Module Samples.
Import Store.

(** A file 2 directly under root, first with mtime 10, then with mtime 11,
    then (stale) with mtime 5; a directory 1 under root and a file 3 in it. *)
Definition file2_v1 : item :=
  mkItem 2 (Some 0) None None (Some "a.txt") None (Some false) None None (Some 10) None None.
Definition file2_v2 : item :=
  mkItem 2 (Some 0) None None (Some "a.txt") None (Some false) None None (Some 11) None None.
Definition file2_stale : item :=
  mkItem 2 (Some 0) None None (Some "old.txt") None (Some false) None None (Some 5) None None.
Definition dir1 : item :=
  mkItem 1 (Some 0) None None (Some "d") None (Some true) None None (Some 10) None None.
Definition file3 : item :=
  mkItem 3 (Some 1) None None (Some "b.txt") None (Some false) None None (Some 10) None None.

Definition file4 : item :=
  mkItem 4 (Some 0) None None (Some "c.txt") None (Some false) None None (Some 12) None None.

(** The row stored for [file2_v1] when inserted at time 1. *)
Definition row2_v1 : row :=
  mkRow 2 0 "" "" "a.txt" 0 false 0 0 10 false true 1 false.

(** The database after inserting [file2_v1] at time 1. *)
Definition db_file2 : db :=
  mkDb {[2 := row2_v1]} {[0 := mkDirlen 0 1 0 1]}
    [mkEvent 1 2 None (row_json row2_v1) (Some (mkFs "insert" false [Add]))] 2 false.

(** A directory whose history holds 1 (mtime 100), 2 (mtime 90) and 3
    (mtime 80), while the listing has 1 and 3 unchanged, 2 gone and a new
    file 4 (mtime 95): three items, as many as in the history. *)
Definition pages_balanced : list (Paginator.resp Reconcile.attr) :=
  [Paginator.mkResp [Reconcile.mkAttr 1 100 false; Reconcile.mkAttr 4 95 false;
                     Reconcile.mkAttr 3 80 false] 3 0 7].
Definition groups_balanced : list (Z * gset Z) := [(100, {[1]}); (90, {[2]}); (80, {[3]})].

(** What [iterdir] yields on [pages_balanced], and its final [seen]. *)
Definition stream_balanced : list (Reconcile.attr * gset Z) :=
  Eval vm_compute in
    match Reconcile.iterdir pages_balanced with inr (_, s, _) => s | inl _ => [] end.
Definition sf_balanced : gset Z :=
  Eval vm_compute in
    match Reconcile.iterdir pages_balanced with inr (_, _, s) => s | inl _ => ∅ end.

(** A directory listed in two pages, directory 6 first as the server
    sends it; history 1 (mtime 100), 2 (90), 3 (70), 8 (50): 1 and 8 are
    unchanged, 3 changed, 2 removed, 6, 7 and 9 are new. *)
Definition pages_mixed : list (Paginator.resp Reconcile.attr) :=
  [Paginator.mkResp [Reconcile.mkAttr 6 95 true; Reconcile.mkAttr 1 100 false;
                     Reconcile.mkAttr 3 85 false] 6 0 7;
   Paginator.mkResp [Reconcile.mkAttr 7 60 false; Reconcile.mkAttr 8 50 false;
                     Reconcile.mkAttr 9 40 false] 6 3 7].
Definition groups_mixed : list (Z * gset Z) :=
  [(100, {[1]}); (90, {[2]}); (70, {[3]}); (50, {[8]})].

(** What [iterdir] yields on [pages_mixed], and its final [seen]. *)
Definition stream_mixed : list (Reconcile.attr * gset Z) :=
  Eval vm_compute in
    match Reconcile.iterdir pages_mixed with inr (_, s, _) => s | inl _ => [] end.
Definition sf_mixed : gset Z :=
  Eval vm_compute in
    match Reconcile.iterdir pages_mixed with inr (_, _, s) => s | inl _ => ∅ end.

(** The database after upserting [file4] into [db_file2] at time 2. *)
Definition db_file24 : db :=
  Eval vm_compute in
    match upsert_items 2 [file4] db_file2 with Some d => d | None => db_file2 end.

(** The database after killing file 2 of [db_file2] at time 2. *)
Definition db_file2_dead : db :=
  Eval vm_compute in
    match kill_items 2 [2] db_file2 with Some d => d | None => db_file2 end.

End Samples.

(** * Proofs *)

(** ** Proofs about the store *)
Module StoreFacts.
Import Store.


Lemma bind_some {A B} (x : A) (f : A -> option B) : (Some x ≫= f) = f x.
Proof. reflexivity. Qed.

Lemma bind_none {A B} (f : A -> option B) : (None ≫= f) = None.
Proof. reflexivity. Qed.

Ltac inv_bind H E :=
  lazymatch type of H with
  | mbind _ ?e = Some _ =>
      destruct e eqn:E; [rewrite bind_some in H | rewrite bind_none in H; discriminate H]
  end.

Lemma dirlen_update_data fuel i s d d' :
  dirlen_update fuel i s d = Some d' -> data d' = data d /\ disable_event d' = disable_event d
  /\ event d' = event d.
Proof.
  revert i s d d'. induction fuel as [|fuel IH]; intros i s d d' H; cbn in H.
  - destruct (dirlen d !! i) as [o|]; [|by injection H as <-].
    inv_bind H E. destruct (_ && _); [discriminate | by injection H as <-].
  - destruct (dirlen d !! i) as [o|]; [|by injection H as <-].
    inv_bind H E. destruct (_ && _).
    + destruct (data _ !! i) as [r|].
      * apply IH in H. cbn in H. exact H.
      * by injection H as <-.
    + by injection H as <-.
Qed.

Lemma when_dirlen_data c s d d' :
  (forall d0 d0', s d0 = Some d0' -> data d0' = data d0 /\ disable_event d0' = disable_event d0
                                     /\ event d0' = event d0) ->
  when_ c s d = Some d' -> data d' = data d /\ disable_event d' = disable_event d /\ event d' = event d.
Proof. intros Hs H. unfold when_ in H. destruct c; [by apply Hs | by injection H as <-]. Qed.

Lemma sel_update_data fuel j i f1 f2 f3 (g : Z -> Z -> Z -> dirlen_row -> option dirlen_row) d d' :
  (dc ← sel f1 i d; tdc ← sel f2 i d; tfc ← sel f3 i d;
   dirlen_update fuel j (g dc tdc tfc) d) = Some d' ->
  data d' = data d /\ disable_event d' = disable_event d /\ event d' = event d.
Proof.
  intros H. inv_bind H E1. inv_bind H E2. inv_bind H E3.
  by eapply dirlen_update_data.
Qed.


Lemma log_insert_data new d : data (log_insert new d) = data d.
Proof. unfold log_insert. by destruct (disable_event d). Qed.

Lemma log_update_data old new d : data (log_update old new d) = data d.
Proof. unfold log_update. destruct (disable_event d); [done|]. by destruct (decide _). Qed.

Lemma trg_data_insert_data fuel new d d' :
  trg_data_insert fuel new d = Some d' -> data d' = data d.
Proof.
  unfold trg_data_insert. intros H. inv_bind H E.
  apply dirlen_update_data in E as (E1 & _ & _).
  injection H as <-. rewrite log_insert_data, E1. by destruct (is_dir new).
Qed.

Lemma trg_data_update_data fuel now old new d d' :
  trg_data_update fuel now old new d = Some d' ->
  data d' = match data d !! id new with
            | Some r => <[id new := bookkeep now r]> (data d)
            | None => data d
            end.
Proof.
  unfold trg_data_update. intros H.
  inv_bind H E. apply when_dirlen_data in E as (E1 & _ & _);
    [|intros ???; by eapply dirlen_update_data].
  inv_bind H E0. apply when_dirlen_data in E0 as (E2 & _ & _);
    [|intros ???; by eapply (sel_update_data _ _ _ _ _ _ (fun a b c p => Some _))].
  inv_bind H E3. apply when_dirlen_data in E3 as (E4 & _ & _);
    [|intros ???; by eapply dirlen_update_data].
  inv_bind H E5. apply when_dirlen_data in E5 as (E6 & _ & _);
    [|intros ???; by eapply (sel_update_data _ _ _ _ _ _ (fun a b c p => Some _))].
  injection H as <-. rewrite log_update_data, E6, E4, E2, E1.
  destruct (data d !! id new); reflexivity.
Qed.

(** A successful [upsert_row] keeps every row it does not target and
    never lowers a stored [mtime]. *)
Lemma upsert_row_mtime now it d d' :
  upsert_row now it d = Some d' ->
  forall k r, data d !! k = Some r ->
  exists r', data d' !! k = Some r' /\ mtime r <= mtime r'.
Proof.
  unfold upsert_row. intros H k r Hk.
  destruct (data d !! i_id it) as [old|] eqn:Hold.
  - unfold update_row in H. case_decide as Hlt.
    + injection H as <-. exists r; split; [done | lia].
    + destruct (_triggered (merge old it)) eqn:Ht.
      { unfold merge in Ht. cbn in Ht. discriminate. }
      apply trg_data_update_data in H. cbn [data set_data] in H.
      change (id (merge old it)) with (i_id it) in H.
      rewrite lookup_insert_eq, insert_insert_eq in H. rewrite H.
      destruct (decide (k = i_id it)) as [->|Hne].
      * rewrite lookup_insert_eq. eexists; split; [done|].
        rewrite Hold in Hk. injection Hk as <-. unfold bookkeep. cbn [mtime]. lia.
      * rewrite lookup_insert_ne by congruence. exists r; split; [done | lia].
  - inv_bind H E. apply trg_data_insert_data in H. cbn [data set_data] in H. rewrite H.
    destruct (decide (k = i_id it)) as [->|Hne]; [congruence|].
    rewrite lookup_insert_ne by congruence. exists r; split; [done | lia].
Qed.

Lemma upsert_items_mtime now its d d' :
  upsert_items now its d = Some d' ->
  forall k r, data d !! k = Some r ->
  exists r', data d' !! k = Some r' /\ mtime r <= mtime r'.
Proof.
  revert d. induction its as [|it its IH]; intros d H k r Hk; cbn [upsert_items] in H.
  - injection H as <-. exists r; split; [done | lia].
  - inv_bind H E. destruct (upsert_row_mtime _ _ _ _ E k r Hk) as (r1 & Hr1 & Hle1).
    destruct (IH _ H k r1 Hr1) as (r2 & Hr2 & Hle2). exists r2; split; [done | lia].
Qed.

Lemma upsert_row_older now it d old m :
  data d !! i_id it = Some old -> i_mtime it = Some m -> m < mtime old ->
  upsert_row now it d = Some d.
Proof.
  intros Hold Hm Hlt. unfold upsert_row. rewrite Hold. unfold update_row.
  rewrite decide_True; [done|]. unfold merge. cbn [mtime]. rewrite Hm. exact Hlt.
Qed.

Lemma upsert_row_newer now it d d' old :
  data d !! i_id it = Some old ->
  (forall m, i_mtime it = Some m -> mtime old <= m) ->
  upsert_row now it d = Some d' ->
  data d' !! i_id it = Some (bookkeep now (merge old it)).
Proof.
  intros Hold Hm H. unfold upsert_row in H. rewrite Hold in H. unfold update_row in H.
  rewrite decide_False in H.
  2:{ unfold merge. cbn [mtime]. destruct (i_mtime it) as [m|] eqn:E; cbn; [|lia].
      specialize (Hm m eq_refl). lia. }
  replace (_triggered (merge old it)) with false in H by reflexivity.
  apply trg_data_update_data in H. cbn [data set_data] in H.
  change (id (merge old it)) with (i_id it) in H.
  rewrite lookup_insert_eq, insert_insert_eq in H. rewrite H. apply lookup_insert_eq.
Qed.

(** C1: for a fixed id the stored [mtime] never decreases over a sequence
    of upserts; an upsert whose incoming [mtime] is older than the stored
    one is dropped by [trg_data_before_update] and leaves the database
    unchanged, and an upsert with an equal or newer (or no) [mtime] writes
    the merged row, whose business columns are the incoming ones (only
    [updated_at] and [_triggered] are then set by [trg_data_update]). *)
Theorem upsert_mtime_gate :
  (forall now its d d', upsert_items now its d = Some d' ->
     forall k r, data d !! k = Some r ->
     exists r', data d' !! k = Some r' /\ mtime r <= mtime r') /\
  (forall now it d old m, data d !! i_id it = Some old -> i_mtime it = Some m ->
     m < mtime old -> upsert_row now it d = Some d) /\
  (forall now it d d' old, data d !! i_id it = Some old ->
     (forall m, i_mtime it = Some m -> mtime old <= m) ->
     upsert_row now it d = Some d' ->
     data d' !! i_id it = Some (bookkeep now (merge old it)) /\
     row_json (bookkeep now (merge old it)) = row_json (merge old it)).
Proof.
  split; [exact upsert_items_mtime|]. split; [exact upsert_row_older|].
  intros now it d d' old Hold Hm H. split; [by eapply upsert_row_newer | reflexivity].
Qed.

End StoreFacts.

(** ** Runs of the store on concrete inputs *)
Module StoreRuns.
Import Store Samples StoreFacts.

Lemma db_file2_run : upsert_row 1 file2_v1 (initdb false) = Some db_file2.
Proof. vm_compute. reflexivity. Qed.

(** The three parts of [upsert_mtime_gate] used on [db_file2]: a newer
    upsert of file 2 keeps its mtime at least 10, a stale one (mtime 5)
    is dropped, and the newer one stores the merged row. *)
Lemma upsert_mtime_gate_witness :
  (exists r', (d' ← upsert_items 2 [file2_v2] db_file2; data d' !! 2) = Some r'
              /\ 10 <= mtime r') /\
  upsert_row 3 file2_stale db_file2 = Some db_file2 /\
  (d' ← upsert_row 2 file2_v2 db_file2; data d' !! 2)
    = Some (bookkeep 2 (merge row2_v1 file2_v2)).
Proof.
  destruct upsert_mtime_gate as (Hseq & Hold & Hnew).
  split; [|split].
  - destruct (upsert_items 2 [file2_v2] db_file2) as [d'|] eqn:E;
      [|vm_compute in E; discriminate E].
    destruct (Hseq 2 [file2_v2] db_file2 d' E 2 row2_v1 eq_refl) as (r' & Hr' & Hle).
    exists r'. rewrite bind_some. split; [exact Hr'|exact Hle].
  - apply (Hold 3 file2_stale db_file2 row2_v1 5); [reflexivity|reflexivity|vm_compute; reflexivity].
  - destruct (upsert_row 2 file2_v2 db_file2) as [d'|] eqn:E;
      [|vm_compute in E; discriminate E].
    rewrite bind_some.
    apply (Hnew 2 file2_v2 db_file2 d' row2_v1); [reflexivity| |exact E].
    intros m Hm. vm_compute in Hm. injection Hm as <-. vm_compute. discriminate.
Defined.

(** C2: the [dirlen] counts drift from the alive subtree. File 2 is
    inserted, then upserted again with a newer mtime (so its stored
    [_triggered] is 1), then killed: [kill_items] leaves [_triggered] at 1,
    [trg_data_update] does not fire, and the root still counts one file in
    its tree although no row is alive. Killing file 2 right after its
    insert (when [_triggered] is 0) does bring the count to 0. *)
Theorem dirlen_count_drift :
  match upsert_items 2 [file2_v2] db_file2 with
  | Some d1 =>
      match kill_items 3 [2] d1 with
      | Some d2 =>
          (tree_file_count <$> dirlen d2 !! 0) = Some 1 /\
          alive_tree_counts d2 0 = (0, 0)
      | None => False
      end
  | None => False
  end /\
  match kill_items 2 [2] db_file2 with
  | Some d2 =>
      (tree_file_count <$> dirlen d2 !! 0) = Some 0 /\
      alive_tree_counts d2 0 = (0, 0)
  | None => False
  end.
Proof. vm_compute. repeat split; reflexivity. Qed.

(** A second drift: after directory 1 is killed, killing its file 3
    still propagates through the dead row of directory 1, and the root
    ends with a negative tree file count. *)
Lemma dirlen_dead_parent_drift :
  match upsert_items 1 [dir1; file3] (initdb false) with
  | Some d1 =>
      match kill_items 2 [1] d1 with
      | Some d2 =>
          match kill_items 3 [3] d2 with
          | Some d3 =>
              (tree_file_count <$> dirlen d3 !! 0) = Some (-1) /\
              alive_tree_counts d3 0 = (0, 0)
          | None => False
          end
      | None => False
      end
  | None => False
  end.
Proof. vm_compute. split; reflexivity. Qed.

(** C5: the kill of [dirlen_count_drift] changes [is_alive] of file 2
    from true to false, yet no event row is appended for it. *)
Theorem kill_after_update_no_event :
  match upsert_items 2 [file2_v2] db_file2 with
  | Some d1 =>
      match kill_items 3 [2] d1 with
      | Some d2 =>
          (is_alive <$> data d1 !! 2) = Some true /\
          (is_alive <$> data d2 !! 2) = Some false /\
          length (event d1) = 2%nat /\
          event d2 = event d1
      | None => False
      end
  | None => False
  end.
Proof. vm_compute. repeat split; reflexivity. Qed.

End StoreRuns.

Module SortFacts.
Import SortHelper.

Section facts.
Context {A : Type} (get_id get_parent : A -> Z).


Lemma pm_lookup m l x p :
  foldl (fun (m : gmap Z Z) a => <[get_id a := get_parent a]> m) m l !! x = Some p ->
  m !! x = Some p \/ exists a, In a l /\ get_id a = x /\ get_parent a = p.
Proof.
  revert m. induction l as [|a l IH]; intros m H; cbn [foldl] in H; [by left|].
  destruct (IH _ H) as [H1|(b & Hb & <- & <-)].
  - apply lookup_insert_Some in H1 as [[<- <-]|[_ H1]].
    + right. exists a. split; [left|]; auto.
    + by left.
  - right. exists b. split; [right|]; auto.
Qed.

Lemma pm_keep m l x : is_Some (m !! x) -> is_Some (foldl (fun (m : gmap Z Z) a => <[get_id a := get_parent a]> m) m l !! x).
Proof.
  revert m. induction l as [|a l IH]; intros m H; cbn [foldl]; [done|].
  apply IH. destruct (decide (get_id a = x)) as [<-|Hne].
  - rewrite lookup_insert_eq. eauto.
  - by rewrite lookup_insert_ne.
Qed.

Lemma pm_some m l a : In a l -> is_Some (foldl (fun (m : gmap Z Z) a => <[get_id a := get_parent a]> m) m l !! get_id a).
Proof.
  revert m. induction l as [|b l IH]; intros m H; [destruct H|].
  destruct H as [<-|H]; cbn [foldl].
  - apply pm_keep. rewrite lookup_insert_eq. eauto.
  - by apply IH.
Qed.

Lemma size_list_to_set_le (L : list Z) : (size (list_to_set L : gset Z) <= length L)%nat.
Proof.
  induction L as [|x L IH]; cbn [list_to_set length]; [rewrite size_empty; lia|].
  rewrite size_union_alt, size_singleton.
  assert (size (list_to_set L ∖ {[x]} : gset Z) <= size (list_to_set L : gset Z))%nat
    by (apply subseteq_size; set_solver).
  lia.
Qed.

Lemma depth_mono d n x k : depth d n x = Some k -> depth d (S n) x = Some k.
Proof.
  revert x k. induction n as [|n IH]; intros x k H; cbn [depth] in *.
  - destruct (d !! x); [discriminate|exact H].
  - destruct (d !! x) as [p|]; [|exact H].
    destruct (depth d n p) as [k'|] eqn:E; [|discriminate].
    rewrite (IH _ _ E). exact H.
Qed.

Lemma depth_mono_le d n m x k : (n <= m)%nat -> depth d n x = Some k -> depth d m x = Some k.
Proof. induction 1; auto using depth_mono. Qed.

Lemma depth_total d (rank : Z -> nat)
  (Hr : forall x p, d !! x = Some p -> is_Some (d !! p) -> (rank p < rank x)%nat) :
  forall n x, (size (filter (fun k => rank k <= rank x)%nat (dom d)) <= n)%nat ->
  is_Some (depth d n x).
Proof.
  induction n as [|n IH]; intros x Hs; cbn [depth];
    destruct (d !! x) as [p|] eqn:Ex; eauto.
  - exfalso. assert (Hx : x ∈ filter (fun k => rank k <= rank x)%nat (dom d)).
    { apply elem_of_filter. split; [lia|]. apply elem_of_dom. eauto. }
    assert (H0 : size (filter (fun k => rank k <= rank x)%nat (dom d)) = 0%nat) by lia.
    apply size_empty_iff in H0. set_solver.
  - destruct (d !! p) as [q|] eqn:Ep.
    + assert (Hlt : (rank p < rank x)%nat) by (eapply Hr; eauto).
      assert (Hsub : filter (fun k => rank k <= rank p)%nat (dom d)
                     ⊂ filter (fun k => rank k <= rank x)%nat (dom d)).
      { split.
        - intros k. rewrite !elem_of_filter. intros [? ?]. split; [lia|done].
        - intros Hc. assert (Hx : x ∈ filter (fun k => rank k <= rank x)%nat (dom d)).
          { apply elem_of_filter. split; [lia|]. apply elem_of_dom. eauto. }
          apply Hc, elem_of_filter in Hx. lia. }
      apply subset_size in Hsub.
      destruct (IH p) as [k Hk]; [lia|]. rewrite Hk. eauto.
    + destruct n; cbn [depth]; rewrite Ep; eauto.
Qed.

Lemma insert_key_perm r (x : nat * A) l : insert_key r x l ≡ₚ x :: l.
Proof.
  induction l as [|y l IH]; cbn [insert_key]; [done|].
  destruct (before r x.1 y.1); [done|].
  rewrite IH. apply perm_swap.
Qed.

Lemma isort_perm_acc r (l acc : list (nat * A)) :
  foldl (fun acc x => insert_key r x acc) acc l ≡ₚ l ++ acc.
Proof.
  revert acc. induction l as [|x l IH]; intros acc; cbn [foldl app]; [done|].
  rewrite IH, insert_key_perm. symmetry. apply Permutation_middle.
Qed.

Lemma isort_perm r (l : list (nat * A)) : isort r l ≡ₚ l.
Proof. unfold isort. rewrite isort_perm_acc. by rewrite app_nil_r. Qed.

Definition key_le (x y : nat * A) : Prop := (x.1 <= y.1)%nat.

Lemma insert_key_sorted x l :
  StronglySorted key_le l -> StronglySorted key_le (insert_key false x l).
Proof.
  induction 1 as [|y l Hl IH Hy]; cbn [insert_key]; [repeat constructor|].
  unfold before. destruct (Nat.ltb_spec x.1 y.1) as [Hlt|Hge].
  - constructor; [by constructor|]. constructor; [unfold key_le; lia|].
    eapply Forall_impl; [exact Hy|]. unfold key_le. intros z Hz. lia.
  - constructor; [exact IH|].
    apply Forall_forall. intros z Hz.
    rewrite (insert_key_perm false x l) in Hz.
    apply elem_of_cons in Hz as [->|Hz]; [unfold key_le; lia|].
    rewrite Forall_forall in Hy. by apply Hy.
Qed.

Lemma isort_sorted_acc (l acc : list (nat * A)) :
  StronglySorted key_le acc ->
  StronglySorted key_le (foldl (fun acc x => insert_key false x acc) acc l).
Proof.
  revert acc. induction l as [|x l IH]; intros acc H; cbn [foldl]; [done|].
  apply IH, insert_key_sorted, H.
Qed.

Lemma isort_sorted (l : list (nat * A)) : StronglySorted key_le (isort false l).
Proof. apply isort_sorted_acc. constructor. Qed.

Lemma StronglySorted_lookup {B} (R : B -> B -> Prop) l i j a b :
  StronglySorted R l -> l !! i = Some a -> l !! j = Some b -> (i < j)%nat -> R a b.
Proof.
  intros HS. revert i j. induction HS as [|c l Hl IH Hc]; intros i j Hi Hj Hij; [done|].
  destruct j as [|j]; [lia|]. destruct i as [|i]; cbn in Hi, Hj.
  - injection Hi as <-. rewrite Forall_forall in Hc. apply Hc.
    by eapply list_elem_of_lookup_2.
  - apply (IH i j); auto. lia.
Qed.

Lemma Forall2_elem_r {B C} (P : B -> C -> Prop) l k y :
  Forall2 P l k -> y ∈ k -> exists x, x ∈ l /\ P x y.
Proof.
  induction 1 as [|x y' l k Hxy _ IH]; intros Hy; [by apply elem_of_nil in Hy|].
  apply elem_of_cons in Hy as [->|Hy].
  - exists x. split; [left|]; done.
  - destruct (IH Hy) as (x' & Hx' & HP). exists x'. split; [by right|done].
Qed.

Lemma Forall2_snd {B} (l : list B) (k : list (nat * B)) :
  Forall2 (fun x y => y.2 = x) l k -> snd <$> k = l.
Proof. induction 1; cbn; congruence. Qed.

(** C9: when the id-to-parent_id mapping of the records is a function
    and acyclic (a rank that strictly decreases from a record's id to its
    parent_id whenever that parent is itself a record of the list), [sort]
    with [reverse=False] terminates (every [depth] call returns), returns a
    permutation of its input, and every record whose id is another record's
    parent_id comes before that record. *)
Theorem sort_parent_first (data : list A) (rank : Z -> nat)
  (Hfun : forall a b, a ∈ data -> b ∈ data -> get_id a = get_id b ->
          get_parent a = get_parent b)
  (Hacyclic : forall a b, a ∈ data -> b ∈ data -> get_id b = get_parent a ->
              (rank (get_parent a) < rank (get_id a))%nat) :
  exists data', sort get_id get_parent data false = Some data' /\
    data' ≡ₚ data /\
    forall i j a b, data' !! i = Some a -> data' !! j = Some b ->
      get_parent b = get_id a -> (i < j)%nat.
Proof.
  set (d := parent_map get_id get_parent data).
  remember (length data) as n eqn:En.
  assert (Hr : forall x p, d !! x = Some p -> is_Some (d !! p) -> (rank p < rank x)%nat).
  { intros x p Hx [q Hp].
    apply pm_lookup in Hx as [Hx|(a & Ha & <- & <-)]; [by rewrite lookup_empty in Hx|].
    apply pm_lookup in Hp as [Hp|(b & Hb & Hbid & _)]; [by rewrite lookup_empty in Hp|].
    apply list_elem_of_In in Ha, Hb. eapply Hacyclic; eauto. }
  assert (Hdom : (size (dom d) <= n)%nat).
  { assert (Hsub : dom d ⊆ (list_to_set (get_id <$> data) : gset Z)).
    { intros k Hk. apply elem_of_dom in Hk as [p Hp].
      apply pm_lookup in Hp as [Hp|(a & Ha & <- & _)]; [by rewrite lookup_empty in Hp|].
      apply elem_of_list_to_set, list_elem_of_fmap. exists a.
      split; [done|]. by apply list_elem_of_In. }
    apply subseteq_size in Hsub. pose proof (size_list_to_set_le (get_id <$> data)).
    rewrite length_fmap in *. lia. }
  assert (Htot : forall x, is_Some (depth d n x)).
  { intros x. apply (depth_total d rank Hr).
    etrans; [|exact Hdom]. apply subseteq_size.
    intros k. rewrite elem_of_filter. tauto. }
  destruct (mapM_is_Some_2 (fun a => (fun k => (k, a)) <$> depth d n (get_id a)) data)
    as [kl Hkl].
  { apply Forall_forall. intros a _. cbn. destruct (Htot (get_id a)) as [k ->]. eauto. }
  assert (Hs : sort get_id get_parent data false = Some (snd <$> isort false kl)).
  { unfold sort. fold d. rewrite <- En, Hkl. reflexivity. }
  apply mapM_Some in Hkl.
  assert (Hkl' : Forall2 (fun a y => y.2 = a /\ depth d n (get_id a) = Some y.1) data kl).
  { eapply Forall2_impl; [exact Hkl|]. intros a [k a'] H.
    destruct (depth d n (get_id a)) eqn:E; cbn in H; [|discriminate].
    injection H as <- <-. auto. }
  assert (Hin : forall k a, (k, a) ∈ isort false kl ->
                a ∈ data /\ depth d n (get_id a) = Some k).
  { intros k a H. rewrite isort_perm in H.
    destruct (Forall2_elem_r _ _ _ _ Hkl' H) as (x & Hx & Hxa & Hk). cbn in *.
    subst x. auto. }
  exists (snd <$> isort false kl). split; [exact Hs|]. split.
  { rewrite isort_perm. erewrite Forall2_snd; [reflexivity|]. eapply Forall2_impl; [exact Hkl'|]. intros ? ? []; done. }
  intros i j a b Hi Hj Hpar.
  rewrite list_lookup_fmap in Hi, Hj.
  destruct (isort false kl !! i) as [[ka a']|] eqn:Ei; [|discriminate].
  destruct (isort false kl !! j) as [[kb b']|] eqn:Ej; [|discriminate].
  cbn in Hi, Hj. injection Hi as ->. injection Hj as ->.
  destruct (Hin ka a) as [Ha Hka]; [by eapply list_elem_of_lookup_2|].
  destruct (Hin kb b) as [Hb Hkb]; [by eapply list_elem_of_lookup_2|].
  assert (Hdb : d !! get_id b = Some (get_parent b)).
  { destruct (pm_some ∅ data b) as [p Hp]; [by apply list_elem_of_In|].
    pose proof Hp as Hp'.
    apply pm_lookup in Hp as [Hp|(c & Hc & Hcid & <-)]; [by rewrite lookup_empty in Hp|].
    rewrite <- (Hfun c b); [exact Hp'|by apply list_elem_of_In|exact Hb|exact Hcid]. }
  assert (Hk : kb = S ka).
  { destruct n as [|n']; cbn [depth] in Hkb; rewrite Hdb in Hkb; [discriminate|].
    destruct (depth d n' (get_parent b)) as [k'|] eqn:E; cbn in Hkb; [|discriminate].
    rewrite Hpar in E. apply depth_mono in E. congruence. }
  destruct (lt_eq_lt_dec i j) as [[Hlt | ->] | Hgt]; [exact Hlt| |].
  - rewrite Ei in Ej. injection Ej. lia.
  - pose proof (StronglySorted_lookup _ _ _ _ _ _ (isort_sorted kl) Ej Ei Hgt) as H.
    unfold key_le in H. cbn in H. lia.
Qed.

End facts.

(** The records [(id, parent_id)] of a chain 1 <- 2 <- 3 (in reverse
    order) plus a second child 4 of 1; the rank of an id is the id itself. *)
Lemma sort_parent_first_witness :
  exists data', sort fst snd [(3, 2); (4, 1); (2, 1); (1, 0)] false = Some data' /\
    data' ≡ₚ [(3, 2); (4, 1); (2, 1); (1, 0)] /\
    forall i j a b, data' !! i = Some a -> data' !! j = Some b -> b.2 = a.1 -> (i < j)%nat.
Proof.
  apply (sort_parent_first fst snd [(3, 2); (4, 1); (2, 1); (1, 0)] Z.to_nat).
  - intros a b Ha Hb Hab. apply list_elem_of_In in Ha, Hb. cbn in Ha, Hb.
    intuition subst; cbn in *; lia.
  - intros a b Ha Hb Hab. apply list_elem_of_In in Ha, Hb. cbn in Ha, Hb.
    intuition subst; cbn in *; lia.
Defined.

End SortFacts.

(** ** Proofs about the orchestrator *)
Module OrchestratorFacts.
Import Orchestrator.


(** C10: in a recursive run with a positive threshold, a dequeued
    directory not yet processed whose statistics probe reports a count
    [<= 0] is added to [seen] and dropped: nothing is reconciled for it and
    nothing is enqueued (with or without a logger). *)
Theorem probe_nonpositive_skip logger thr probes recon id q sn lg n :
  0 < thr -> id ∉ sn -> probes id = PCount n -> n <= 0 ->
  step logger thr true probes recon (mkO (id :: q) sn lg) = Continue (mkO q ({[id]} ∪ sn) lg).
Proof.
  intros Hthr Hid Hp Hn. unfold step. cbn [queue seen log].
  rewrite decide_False by exact Hid. unfold split_decision.
  rewrite decide_False by lia. rewrite decide_False by lia.
  rewrite Hp. cbn [get_file_count_in_tree]. rewrite decide_True by exact Hn.
  reflexivity.
Qed.

Lemma probe_nonpositive_skip_witness :
  step true 10 true (fun _ => PCount 0) (fun _ _ => ROk [7]) (mkO [3; 4] ∅ [])
  = Continue (mkO [4] ({[3]} ∪ ∅) []).
Proof.
  apply (probe_nonpositive_skip true 10 (fun _ => PCount 0) (fun _ _ => ROk [7]) 3 [4] ∅ [] 0);
    [lia | set_solver | reflexivity | lia].
Defined.




End OrchestratorFacts.

(** ** Proofs about the paginators *)
Module PaginatorFacts.
Import Paginator.

Section static.
Context {A : Type} (items : list A) (cid ps : Z) (Hps : 0 < ps).

Let L := Z.of_nat (length items).

Definition inv (st : pstate (A:=A)) : Prop :=
  0 <= offset st /\
  (cur st).2 = offset st /\
  (forall i f o, dq st !! i = Some (f, o) ->
     o = offset st + (Z.of_nat i + 1) * ps /\ f.2 = o) /\
  (p_off st = offset st + Z.of_nat (length (dq st)) * ps \/
   (count st = L /\ L <= offset st + Z.of_nat (length (dq st)) * ps + ps /\
    offset st + Z.of_nat (length (dq st)) * ps <= p_off st)) /\
  (count st = -1 \/ count st = L) /\
  mjoin (r_data <$> out st) = take (Z.to_nat (offset st)) items.

Lemma page_app o : 0 <= o ->
  take (Z.to_nat o) items ++ r_data (static_listing items cid ps o)
  = take (Z.to_nat (o + ps)) items.
Proof.
  intros Ho. cbn. rewrite take_take_drop. f_equal. lia.
Qed.

Lemma threaded_static sched st res :
  inv st -> threaded_run (fun _ o => static_listing items cid ps o) cid ps sched st = PDone res ->
  mjoin (r_data <$> res) = items.
Proof.
  revert st. induction sched as [|e es IH]; intros st Hinv Hrun; [discriminate Hrun|].
  destruct Hinv as (Hoff & Hcur & Hdq & Hpo & Hc & Hout).
  destruct e; cbn [threaded_run] in Hrun.
  - (* timeout *)
    destruct ((count st <? 0) || (p_off st + ps <? count st)) eqn:Epush.
    + eapply IH; [|exact Hrun]. unfold inv; cbn [p_off count cur offset dq nfetch out].
      split; [done|]. split; [done|]. split.
      * intros i f o Hi. apply lookup_app_Some in Hi as [Hi|[Hlen Hi]]; [by eapply Hdq|].
        apply list_lookup_singleton_Some in Hi as [Hi Heq]. injection Heq as <- <-.
        cbn. split; [|done].
        assert (i = length (dq st)) as -> by lia.
        destruct Hpo as [Hpo|(HcL & HL & Hle)]; [nia|].
        exfalso. rewrite HcL in Epush. apply orb_true_iff in Epush as [E|E];
          [apply Z.ltb_lt in E; unfold L in E; lia|apply Z.ltb_lt in E; lia].
      * split; [|done]. rewrite length_app. cbn [length].
        destruct Hpo as [Hpo|(HcL & HL & Hle)]; [left; lia|].
        exfalso. rewrite HcL in Epush. apply orb_true_iff in Epush as [E|E];
          [apply Z.ltb_lt in E; unfold L in E; lia|apply Z.ltb_lt in E; lia].
    + eapply IH; [|exact Hrun]. unfold inv; cbn [p_off count cur offset dq nfetch out].
      apply orb_false_iff in Epush as [E1 E2]. apply Z.ltb_ge in E1, E2.
      assert (HcL : count st = L) by (destruct Hc; lia).
      do 3 (split; [done|]). split; [|done]. right.
      destruct Hpo as [Hpo|(_ & HL & Hle)]; [split; [done|lia]|split; [done|lia]].
  - (* ready *)
    cbn beta in Hrun. set (r := static_listing items cid ps (cur st).2) in Hrun.
    assert (Hpath : r_path_cid r = cid) by reflexivity.
    rewrite Hpath, Z.eqb_refl, andb_false_r in Hrun.
    assert (Hout' : mjoin (r_data <$> out st ++ [r]) = take (Z.to_nat (offset st + ps)) items).
    { rewrite fmap_app, join_app, Hout. cbn. rewrite app_nil_r.
      unfold r. rewrite Hcur. apply page_app. exact Hoff. }
    destruct (dq st) as [|[f o] dq'] eqn:Edq.
    + assert (Hall : L <= offset st + ps -> mjoin (r_data <$> out st ++ [r]) = items).
      { intros HL. rewrite Hout'. apply take_ge. unfold L in HL. lia. }
      destruct ((r_count r =? 0) || (r_count r <=? offset st) || negb (offset st =? r_offset r)
                || (r_count r <=? offset st + Z.of_nat (length (r_data r)))) eqn:Eb.
      * injection Hrun as <-. apply Hall.
        unfold r in Eb. rewrite Hcur in Eb. cbn [r_count r_offset r_data static_listing] in Eb.
        rewrite Z.eqb_refl in Eb. cbn [negb] in Eb. rewrite orb_false_r in Eb.
        rewrite length_take, length_drop in Eb.
        apply orb_true_iff in Eb as [Eb|Eb]; [apply orb_true_iff in Eb as [Eb|Eb]|].
        -- apply Z.eqb_eq in Eb. unfold L. lia.
        -- apply Z.leb_le in Eb. unfold L. lia.
        -- apply Z.leb_le in Eb. unfold L. lia.
      * destruct (r_count r <=? offset st + ps) eqn:Eo.
        -- injection Hrun as <-. apply Hall. apply Z.leb_le in Eo.
           unfold r in Eo. cbn in Eo. unfold L. lia.
        -- eapply IH; [|exact Hrun]. unfold inv; cbn [p_off count cur offset dq nfetch out].
           split; [lia|]. split; [done|]. split; [intros ? ? ? Hi; by rewrite lookup_nil in Hi|].
           split; [left; cbn; lia|]. split; [right; reflexivity|exact Hout'].
    + eapply IH; [|exact Hrun]. unfold inv; cbn [p_off count cur offset dq nfetch out].
      destruct (Hdq 0%nat f o) as [Ho Hf]; [reflexivity|]. cbn in Ho.
      split; [lia|]. split; [done|]. split.
      * intros i f' o' Hi. destruct (Hdq (S i) f' o') as [Ho' Hf']; [exact Hi|].
        split; [lia|done].
      * cbn [length] in Hpo. split; [|split].
        -- destruct Hpo as [Hpo|(HcL & HL & Hle)]; [left; lia|right; split; [reflexivity|lia]].
        -- right. reflexivity.
        -- rewrite Hout'. f_equal. f_equal. lia.
  - (* retry *)
    eapply IH; [|exact Hrun]. unfold inv; cbn [p_off count cur offset dq nfetch out]. repeat (split; [done|]). done.
  - discriminate Hrun.
Qed.

Lemma inv_init : inv (threaded_init 0).
Proof.
  unfold inv, threaded_init. cbn [p_off count cur offset dq nfetch out fst snd length].
  split; [lia|]. split; [done|]. split; [intros ? ? ? Hi; by rewrite lookup_nil in Hi|].
  split; [left; lia|]. split; [left; reflexivity|reflexivity].
Qed.

End static.

(** C4: on a listing that does not change while it is paged, a run of
    [iter_fs_files_threaded] that ends normally has yielded every item
    once, in order: the pages' ["data"] put end to end are the listing.
    This holds for every order in which the waits time out (each timeout
    queues a look-ahead request), requests are retried and responses
    arrive. *)
Theorem threaded_yields_all {A} (items : list A) cid ps sched res :
  0 < ps ->
  threaded_run (fun _ o => static_listing items cid ps o) cid ps sched (threaded_init 0)
    = PDone res ->
  mjoin (r_data <$> res) = items.
Proof. intros Hps. apply threaded_static; [exact Hps|]. apply inv_init. Qed.

(** Five items in pages of 2; the first wait times out, so the request for
    offset 2 is issued before the first page arrives. *)
Lemma threaded_yields_all_witness :
  exists res,
    threaded_run (fun _ o => static_listing [1; 2; 3; 4; 5] 7 2 o) 7 2
      [EvTimeout; EvReady; EvReady; EvReady] (threaded_init 0) = PDone res /\
    mjoin (r_data <$> res) = [1; 2; 3; 4; 5].
Proof.
  eexists. split; [vm_compute; reflexivity|].
  apply (threaded_yields_all [1; 2; 3; 4; 5] 7 2 [EvTimeout; EvReady; EvReady; EvReady]);
    [lia|vm_compute; reflexivity].
Defined.

(** C6: the total count changes between the pages of one listing (an
    item is added after the first request); both paginators end normally
    and yield every page, with counts 3 then 4 (threaded, as in a full
    pull) and 17 then 18 (plain, first page of 16 as in [diff_dir]): no
    error is raised, so no Busy condition. *)
Theorem count_drift_not_detected :
  (exists r0 r1,
     threaded_run (fun k o => static_listing (if (k =? 0)%nat then [1; 2; 3] else [1; 2; 3; 4]) 7 2 o)
       7 2 [EvReady; EvReady] (threaded_init 0) = PDone [r0; r1] /\
     r_count r0 = 3 /\ r_count r1 = 4) /\
  (exists r0 r1,
     plain_run (fun k o lim => static_listing
                  (if (k =? 0)%nat then seq 1 17 else seq 1 18) 7 lim o)
       7 10000 5 0 0 16 = Some (inr [r0; r1]) /\
     r_count r0 = 17 /\ r_count r1 = 18).
Proof.
  split; (eexists; eexists; split; [vm_compute; reflexivity|]; split; reflexivity).
Qed.

End PaginatorFacts.

(** ** Proofs about the write phases *)
Module WritesFacts.
Import Store Samples Writes.

(** C7: the store holds file 2; the delta upserts a new file 4 and
    tombstones file 2, and the tombstone statement fails. [updatedb_tree]
    has already committed the upsert of file 4 while file 2 stays alive;
    [updatedb_one] rolls back and leaves the committed store unchanged. *)
Theorem tree_writes_partial :
  match tree_writes 5 [] [file4] [] [2] true (mkConn db_file2 db_file2) with
  | WErr c => is_Some (data (committed c) !! 4) /\
              (is_alive <$> data (committed c) !! 2) = Some true
  | WOk _ => False
  end /\
  match one_writes 5 [file4] [2] true (mkConn db_file2 db_file2) with
  | WErr c => committed c = db_file2
  | WOk _ => False
  end.
Proof. vm_compute. split; [split; [eexists; reflexivity|reflexivity]|reflexivity]. Qed.

End WritesFacts.

(** ** Proofs about [iterdir] and [diff_dir] *)
Module ReconcileFacts.
Import Reconcile Samples.

(** Ids of the yielded items of a prefix of the stream. *)
Definition ids (l : list (attr * gset Z)) : gset Z := list_to_set (a_id <$> (fst <$> l)).

(** Each yielded [(a, s)]: [s] contains [lo], the ids yielded so far and
    [a]'s id, and is contained in the final [seen]. *)
Fixpoint snaps (lo sf : gset Z) (out : list (attr * gset Z)) : Prop :=
  match out with
  | [] => True
  | (a, s) :: out' => lo ⊆ s ∧ a_id a ∈ s ∧ s ⊆ sf ∧ snaps ({[a_id a]} ∪ lo) sf out'
  end.

Lemma snaps_mono lo lo' sf out : lo' ⊆ lo → snaps lo sf out → snaps lo' sf out.
Proof.
  revert lo lo'. induction out as [|[a s] out IH]; intros lo lo' Hle H; [done|].
  destruct H as (H1 & H2 & H3 & H4). split_and!; [set_solver|done|done|].
  apply (IH ({[a_id a]} ∪ lo)); [set_solver|done].
Qed.

Lemma snaps_app_inv lo sf l1 l2 : snaps lo sf (l1 ++ l2) → snaps (ids l1 ∪ lo) sf l2.
Proof.
  revert lo. induction l1 as [|[a s] l1 IH]; intros lo H; simpl in *.
  - eapply snaps_mono; [|exact H]. unfold ids. set_solver.
  - destruct H as (_ & _ & _ & H). eapply snaps_mono; [|exact (IH _ H)].
    unfold ids. simpl. set_solver.
Qed.

Lemma snaps_const lo s sf ds tail :
  (∀ d, d ∈ ds → a_id d ∈ s) → lo ⊆ s → s ⊆ sf →
  (∀ lo', lo' ⊆ s → snaps lo' sf tail) →
  snaps lo sf (((fun d => (d, s)) <$> ds) ++ tail).
Proof.
  revert lo. induction ds as [|d ds IH]; intros lo Hd Hlo Hs Ht; simpl.
  - by apply Ht.
  - assert (a_id d ∈ s) by (apply Hd; left).
    split_and!; [done|done|done|].
    apply IH; [intros; apply Hd; by right|set_solver|done|done].
Qed.

Lemma fmap_pair_fst {B} (l : list attr) (s : B) : fst <$> ((fun d => (d, s)) <$> l) = l.
Proof. induction l as [|x l IH]; [done|]. rewrite !fmap_cons. simpl. by rewrite IH. Qed.

Lemma flush_dirs_app m dirs : (flush_dirs m dirs).1 ++ (flush_dirs m dirs).2 = dirs.
Proof.
  induction dirs as [|d ds IH]; simpl; [done|].
  case_decide; simpl; [by rewrite IH|done].
Qed.

Lemma fix_order_spec items : ∀ seen dirs out sf,
  fix_order items seen dirs = inr (out, sf) →
  (∀ d, d ∈ dirs → a_id d ∈ seen) →
  fst <$> out ≡ₚ dirs ++ items ∧
  (∀ x, x ∈ sf ↔ x ∈ a_id <$> items ∨ x ∈ seen) ∧
  NoDup (a_id <$> items) ∧ (∀ y, y ∈ items → a_id y ∉ seen) ∧
  snaps seen sf out.
Proof.
  induction items as [|a items IH]; intros seen dirs out sf Hrun Hd; simpl in Hrun.
  - injection Hrun as <- <-. rewrite fmap_pair_fst, app_nil_r.
    split_and!; [done|set_solver|constructor|set_solver|].
    rewrite <- (app_nil_r (_ <$> dirs)). apply snaps_const; [done|done|done|].
    intros; done.
  - case_decide as Hin; [discriminate|].
    destruct (a_is_dir a) eqn:Edir.
    + apply IH in Hrun as (Hp & Hsf & Hnd & Hns & Hsn);
        [|intros d Hd'; apply elem_of_app in Hd' as [Hd'|Hd']; [apply Hd in Hd'; set_solver|set_solver]].
      split_and!.
      * rewrite Hp, <- app_assoc. done.
      * intros x. rewrite Hsf. simpl. set_solver.
      * simpl. constructor; [|done].
        intros Hx. apply list_elem_of_fmap in Hx as (y & Hy & Hyi).
        apply (Hns y Hyi). set_solver.
      * intros y Hy. apply elem_of_cons in Hy as [->|Hy]; [done|].
        apply Hns in Hy. set_solver.
      * eapply snaps_mono; [|exact Hsn]. set_solver.
    + destruct (fix_order items ({[a_id a]} ∪ seen) (flush_dirs (a_mtime a) dirs).2)
        as [|[out' sf']] eqn:Er; [discriminate|].
      injection Hrun as <- <-.
      pose proof (flush_dirs_app (a_mtime a) dirs) as Hfa.
      apply IH in Er as (Hp & Hsf & Hnd & Hns & Hsn);
        [|intros d Hd'; assert (d ∈ dirs) as Hdd
            by (rewrite <- Hfa; apply elem_of_app; by right); apply Hd in Hdd; set_solver].
      split_and!.
      * rewrite fmap_app, fmap_pair_fst. simpl. rewrite Hp.
        transitivity ((flush_dirs (a_mtime a) dirs).1 ++ (flush_dirs (a_mtime a) dirs).2 ++ a :: items).
        ++ apply Permutation_app_head. apply Permutation_middle.
        ++ rewrite app_assoc, Hfa. done.
      * intros x. rewrite Hsf. simpl. set_solver.
      * simpl. constructor; [|done].
        intros Hx. apply list_elem_of_fmap in Hx as (y & Hy & Hyi).
        apply (Hns y Hyi). set_solver.
      * intros y Hy. apply elem_of_cons in Hy as [->|Hy]; [done|].
        apply Hns in Hy. set_solver.
      * apply snaps_const.
        -- intros d Hd'. assert (d ∈ dirs) as Hdd
             by (rewrite <- Hfa; apply elem_of_app; by left). apply Hd in Hdd. set_solver.
        -- set_solver.
        -- intros x Hx. apply Hsf. by right.
        -- intros lo' Hlo'. simpl. split_and!; [done|set_solver| |].
           ++ intros x Hx. apply Hsf. by right.
           ++ eapply snaps_mono; [|exact Hsn]. set_solver.
Qed.

Lemma SS_app {A} (R : A → A → Prop) l1 l2 :
  StronglySorted R (l1 ++ l2) → (∀ x y, x ∈ l1 → y ∈ l2 → R x y) ∧ StronglySorted R l2.
Proof.
  induction l1 as [|z l1 IH]; simpl; intros H.
  - split; [intros x y Hx; inversion Hx|done].
  - apply StronglySorted_inv in H as [H1 H2]. destruct (IH H1) as [Hc Hs].
    split; [|done]. intros x y Hx Hy. apply elem_of_cons in Hx as [->|Hx]; [|eauto].
    rewrite Forall_forall in H2. apply H2, elem_of_app. by right.
Qed.

(** Pairwise disjoint id sets. *)
Fixpoint pdisj (l : list (Z * gset Z)) : Prop :=
  match l with [] => True | p :: l' => (∀ q, q ∈ l' → p.2 ## q.2) ∧ pdisj l' end.

Lemma pdisj_app l1 l2 :
  pdisj (l1 ++ l2) → pdisj l1 ∧ pdisj l2 ∧ ∀ p q, p ∈ l1 → q ∈ l2 → p.2 ## q.2.
Proof.
  induction l1 as [|p l1 IH]; simpl; intros H.
  - split_and!; [done|done|]. intros p q Hp; inversion Hp.
  - destruct H as [H1 H2]. destruct (IH H2) as (Ha & Hb & Hc).
    refine (conj (conj _ Ha) (conj Hb _)).
    + intros q Hq. apply H1, elem_of_app. by left.
    + intros p' q Hp' Hq. apply elem_of_cons in Hp' as [->|Hp']; [|eauto].
      apply H1, elem_of_app. by right.
Qed.

Lemma pdisj_of_lookup l :
  (∀ i j g g', i ≠ j → l !! i = Some g → l !! j = Some g' → g.2 ## g'.2) → pdisj l.
Proof.
  induction l as [|p l IH]; simpl; intros H; [done|]. split.
  - intros q Hq. apply list_elem_of_lookup_1 in Hq as [j Hj].
    apply (H 0%nat (S j)); [lia|done|done].
  - apply IH. intros i j g g' Hij Hi Hj. apply (H (S i) (S j)); [lia|done|done].
Qed.

(** The number of ids of a list of groups. *)
Definition psize (l : list (Z * gset Z)) : nat := sum_list_with (fun p => size p.2) l.

Lemma psize_pos l p x : p ∈ l → x ∈ p.2 → (1 <= psize l)%nat.
Proof.
  induction l as [|q l IH]; intros Hp Hx; [inversion Hp|]. unfold psize; simpl.
  apply elem_of_cons in Hp as [->|Hp].
  - destruct (decide (size q.2 = 0%nat)) as [E|]; [|lia].
    apply size_empty_iff in E. set_solver.
  - specialize (IH Hp Hx). unfold psize in IH. lia.
Qed.

Lemma psize_app l1 l2 : psize (l1 ++ l2) = (psize l1 + psize l2)%nat.
Proof. apply sum_list_with_app. Qed.

(** The ids a list of groups contributes to [remove_list] when [seen] is [s]. *)
Definition mj (s : gset Z) (l : list (Z * gset Z)) : list Z :=
  mjoin ((fun p => elements (p.2 ∖ s)) <$> l).

Lemma elem_of_mj x s l : x ∈ mj s l ↔ ∃ p, p ∈ l ∧ x ∈ p.2 ∧ x ∉ s.
Proof.
  unfold mj. rewrite list_elem_of_join. split.
  - intros (xs & Hx & Hxs). apply list_elem_of_fmap in Hxs as (p & -> & Hp).
    rewrite elem_of_elements, elem_of_difference in Hx. exists p. tauto.
  - intros (p & Hp & H1 & H2). exists (elements (p.2 ∖ s)). split.
    + rewrite elem_of_elements. set_solver.
    + apply list_elem_of_fmap. eauto.
Qed.

Lemma NoDup_mj s l : pdisj l → NoDup (mj s l).
Proof.
  induction l as [|p l IH]; simpl; intros H; [constructor|]. destruct H as [H1 H2].
  change (NoDup (elements (p.2 ∖ s) ++ mj s l)). apply NoDup_app. split_and!.
  - apply NoDup_elements.
  - intros x Hx Hx'. rewrite elem_of_elements in Hx.
    apply elem_of_mj in Hx' as (q & Hq & Hxq & _). specialize (H1 q Hq). set_solver.
  - by apply IH.
Qed.

Lemma advance_spec m seen h rest r rm b h' rest' r' rm' :
  advance m seen h rest r rm = (b, (h', rest', r', rm')) →
  ∃ passed tail, h :: rest = passed ++ tail ∧ rm' = rm ++ mj seen passed ∧
    r' = r - Z.of_nat (psize passed) ∧ (∀ p, p ∈ passed → m < p.1) ∧
    (b = true ∧ tail = [] ∨ b = false ∧ tail = h' :: rest' ∧ ¬ m < h'.1).
Proof.
  revert h r rm. induction rest as [|h0 rest IH]; intros h r rm Ha; simpl in Ha.
  - case_decide as Hlt.
    + injection Ha as <- <- <- <- <-. exists [h], []. split_and!.
      * done.
      * unfold mj. simpl. by rewrite app_nil_r.
      * unfold psize. simpl. lia.
      * intros p Hp. apply elem_of_cons in Hp as [->|Hp]; [done|inversion Hp].
      * by left.
    + injection Ha as <- <- <- <- <-. exists [], [h]. split_and!; try done.
      * unfold mj. simpl. by rewrite app_nil_r.
      * unfold psize. simpl. lia.
      * intros p Hp; inversion Hp.
      * right. done.
  - case_decide as Hlt.
    + apply IH in Ha as (passed & tail & Heq & Hrm & Hr & Hp & Hb).
      exists (h :: passed), tail. split_and!.
      * simpl. by rewrite Heq.
      * rewrite Hrm. unfold mj. simpl. by rewrite app_assoc.
      * rewrite Hr. unfold psize. simpl. lia.
      * intros p Hp'. apply elem_of_cons in Hp' as [->|Hp']; [done|eauto].
      * done.
    + injection Ha as <- <- <- <- <-. exists [], (h :: h0 :: rest). split_and!; try done.
      * unfold mj. simpl. by rewrite app_nil_r.
      * unfold psize. simpl. lia.
      * intros p Hp; inversion Hp.
      * right. done.
Qed.

Lemma filter_none {A} (P : A → Prop) `{∀ x, Decision (P x)} (l : list A) :
  (∀ x, x ∈ l → ¬ P x) → filter P l = [].
Proof.
  induction l as [|x l IH]; intros Hl; [done|].
  rewrite filter_cons_False by (apply Hl; left). apply IH. intros y Hy. apply Hl. by right.
Qed.

Lemma filter_all {A} (P : A → Prop) `{∀ x, Decision (P x)} (l : list A) :
  (∀ x, x ∈ l → P x) → filter P l = l.
Proof.
  induction l as [|x l IH]; intros Hl; [done|].
  rewrite filter_cons_True by (apply Hl; left). f_equal. apply IH. intros y Hy. apply Hl. by right.
Qed.

Lemma fmap_ext_elem {A B} (f g : A → B) (l : list A) :
  (∀ x, x ∈ l → f x = g x) → f <$> l = g <$> l.
Proof.
  induction l as [|x l IH]; intros H; [done|]. rewrite !fmap_cons. f_equal.
  - apply H. left.
  - apply IH. intros y Hy. apply H. by right.
Qed.

Lemma filter_fmap_key (f : Z * gset Z → Z * gset Z) (m : Z) (l : list (Z * gset Z)) :
  (∀ g, (f g).1 = g.1) →
  filter (fun p : Z * gset Z => p.1 <= m) (f <$> l)
  = f <$> filter (fun g : Z * gset Z => g.1 <= m) l.
Proof.
  intros Hf. induction l as [|g l IH]; [done|].
  rewrite fmap_cons, !filter_cons, Hf. case_decide; [by rewrite fmap_cons, IH|done].
Qed.

Lemma app_snoc_split {A} (P P1 S1 : list A) (x y : A) :
  P ++ [x] = P1 ++ y :: S1 →
  (P1 = P ∧ y = x ∧ S1 = []) ∨ ∃ S1', S1 = S1' ++ [x] ∧ P = P1 ++ y :: S1'.
Proof.
  destruct S1 as [|z S1'] using rev_ind; intros E.
  - apply app_inj_tail in E as [-> ->]. by left.
  - rewrite app_comm_cons, app_assoc in E. apply app_inj_tail in E as [-> ->].
    right. by exists S1'.
Qed.

Section merge.
Context (count : Z) (groups : list (Z * gset Z)) (stream : list (attr * gset Z)) (sf : gset Z).
Hypothesis Hsort : StronglySorted (fun a b : attr * gset Z => a_mtime b.1 <= a_mtime a.1) stream.
Hypothesis Hnd : NoDup (a_id <$> (fst <$> stream)).
Hypothesis Hsnap : snaps ∅ sf stream.
Hypothesis Hsf : ∀ x, x ∈ sf ↔ x ∈ a_id <$> (fst <$> stream).
Hypothesis Hfwd : ∀ g x a, g ∈ groups → x ∈ g.2 → a ∈ fst <$> stream → a_id a = x → g.1 <= a_mtime a.

(** A group of the merge state is what is left of a group of the history. *)
Definition ver (p : Z * gset Z) : Prop := ∃ g, g ∈ groups ∧ p.1 = g.1 ∧ p.2 ⊆ g.2.
Definition in_hist (x : Z) : Prop := ∃ g, g ∈ groups ∧ x ∈ g.2.
(** The item is recorded in the history with the same [mtime]. *)
Definition unch (a : attr) : Prop := ∃ g, g ∈ groups ∧ a_id a ∈ g.2 ∧ g.1 = a_mtime a.
Definition rids : list Z := a_id <$> (fst <$> stream).

(** The ids of the history group [g] that the items of [Q] match: items
    with the same [mtime] as the group. *)
Definition matched (Q : list attr) (g : Z * gset Z) : gset Z :=
  list_to_set (a_id <$> filter (fun b => a_mtime b = g.1) Q) ∩ g.2.

(** What is left of the group [g] once the items of [Q] are processed. *)
Definition left_of (Q : list attr) (g : Z * gset Z) : Z * gset Z := (g.1, g.2 ∖ matched Q g).

(** The groups [(his_mtime, his_ids)] and [his_it] hold after the items of
    [Q]: those no item of [Q] has passed, without their matched ids. *)
Definition vers (Q : list attr) : list (Z * gset Z) :=
  left_of Q <$> filter (fun g : Z * gset Z => Forall (fun b => g.1 <= a_mtime b) Q) groups.

(** The history ids left unresolved by the items of [Q] in the groups of
    [mtime] at most [m]. *)
Definition unresolved (Q : list attr) (m : Z) : Z :=
  Z.of_nat (psize (left_of Q <$> filter (fun g : Z * gset Z => g.1 <= m) groups)).

(** The early return of [diff_dir] fires at the item [a] that follows the
    items [Q]: [a] is recorded in the history with the same [mtime], and
    its 1-based position plus the history ids still unresolved once it is
    matched equals [count]. *)
Definition early_at (Q : list attr) (a : attr) : Prop :=
  unch a ∧ Z.of_nat (length Q) + 1 + unresolved (Q ++ [a]) (a_mtime a) = count.

(** The invariant of the loop after the prefix [P] of the stream, with
    [S] still to come. *)
Definition INV (P S : list (attr * gset Z)) (st : mstate) : Prop :=
  (remains st ≠ 0 → Forall ver (his st :: his_rest st)
     ∧ StronglySorted (fun p q : Z * gset Z => q.1 < p.1) (his st :: his_rest st)
     ∧ pdisj (his st :: his_rest st)
     ∧ remains st = Z.of_nat (psize (his st :: his_rest st))) ∧
  (∀ x, x ∈ rem st → in_hist x ∧ x ∉ rids) ∧ NoDup (rem st) ∧
  (remains st ≠ 0 → ∀ x p, x ∈ rem st → p ∈ his st :: his_rest st → x ∉ p.2) ∧
  (∀ e, e ∈ S → unch e.1 → remains st ≠ 0 ∧
     ∃ p, p ∈ his st :: his_rest st ∧ p.1 = a_mtime e.1 ∧ a_id e.1 ∈ p.2) ∧
  (∀ x, in_hist x → x ∉ rids → x ∈ rem st ∨
     (remains st ≠ 0 ∧ ∃ p, p ∈ his st :: his_rest st ∧ x ∈ p.2)) ∧
  (∀ v, v ∈ ups st → ¬ unch v) ∧ ups st `sublist_of` (fst <$> P) ∧
  (remains st ≠ 0 → his st :: his_rest st = vers (fst <$> P)) ∧
  (∀ P1 b s1 S1, P = P1 ++ (b, s1) :: S1 → ¬ early_at (fst <$> P1) b) ∧
  (∀ x, x ∈ rem st → ∃ g, g ∈ groups ∧ x ∈ g.2 ∧ ∃ b, b ∈ fst <$> P ∧ a_mtime b < g.1).

Definition OUT (t : tag) (u : list attr) (r : list Z) : Prop :=
  (∀ x, x ∈ r → in_hist x ∧ x ∉ rids) ∧ NoDup r ∧
  (∀ v, v ∈ u → ¬ unch v) ∧ u `sublist_of` (fst <$> stream) ∧
  (t = Full → ∀ x, in_hist x → x ∉ rids → x ∈ r) ∧
  (t = Early → ∃ P a s S, stream = P ++ (a, s) :: S ∧ early_at (fst <$> P) a ∧
     (∀ P1 b s1 S1, P = P1 ++ (b, s1) :: S1 → ¬ early_at (fst <$> P1) b) ∧
     u `sublist_of` (fst <$> P) ∧ ∀ x, x ∈ r → ∃ g, g ∈ groups ∧ x ∈ g.2 ∧ a_mtime a < g.1) ∧
  (t = Full → ∀ P a s S, stream = P ++ (a, s) :: S → ¬ early_at (fst <$> P) a).

Lemma vers_nil : vers [] = groups.
Proof.
  unfold vers. rewrite (filter_all _ groups) by (intros; constructor).
  assert (Hl : ∀ l : list (Z * gset Z), left_of [] <$> l = l); [|apply Hl].
  intros l. induction l as [|[z X] l IH]; [done|]. rewrite fmap_cons, IH.
  unfold left_of, matched. rewrite filter_nil, fmap_nil, list_to_set_nil. cbn.
  f_equal. f_equal. set_solver.
Qed.

Lemma matched_snoc Q a g :
  matched (Q ++ [a]) g
  = matched Q g ∪ (if decide (a_mtime a = g.1) then {[a_id a]} ∩ g.2 else ∅).
Proof.
  unfold matched. rewrite filter_app, fmap_app, list_to_set_app_L.
  rewrite (filter_singleton (fun b => a_mtime b = g.1) a []).
  case_decide; cbn; set_solver.
Qed.

Lemma matched_ids Q g x : x ∈ matched Q g → x ∈ a_id <$> Q.
Proof.
  unfold matched. rewrite elem_of_intersection, elem_of_list_to_set. intros [Hx _].
  apply list_elem_of_fmap in Hx as (b & -> & Hb). apply list_elem_of_filter in Hb as [_ Hb].
  apply list_elem_of_fmap. eauto.
Qed.

Lemma vers_snoc Q a : (∀ b, b ∈ Q → a_mtime a <= a_mtime b) →
  vers (Q ++ [a]) = left_of (Q ++ [a]) <$> filter (fun g : Z * gset Z => g.1 <= a_mtime a) groups.
Proof.
  intros HQ. unfold vers. f_equal. apply list_filter_iff. intros g.
  rewrite Forall_app, Forall_singleton. split; [tauto|]. intros Hg. split; [|done].
  rewrite Forall_forall. intros b Hb. specialize (HQ b Hb). lia.
Qed.

Lemma vers_tail Q m passed tail : (∀ b, b ∈ Q → m <= a_mtime b) →
  vers Q = passed ++ tail → (∀ p, p ∈ passed → m < p.1) → (∀ p, p ∈ tail → p.1 <= m) →
  tail = left_of Q <$> filter (fun g : Z * gset Z => g.1 <= m) groups.
Proof.
  intros HQ Hv Hp Ht.
  assert (E := f_equal (filter (fun p : Z * gset Z => p.1 <= m)) Hv).
  rewrite filter_app in E.
  rewrite (filter_none _ passed) in E by (intros q Hq; specialize (Hp q Hq); lia).
  rewrite (filter_all _ tail) in E by exact Ht.
  simpl in E. rewrite <- E. unfold vers. rewrite filter_fmap_key by done.
  rewrite list_filter_filter_l; [reflexivity|].
  intros g Hg. rewrite Forall_forall. intros b Hb. specialize (HQ b Hb). lia.
Qed.

Lemma vers_match Q a h rest : a_id a ∉ a_id <$> Q →
  h :: rest = left_of Q <$> filter (fun g : Z * gset Z => g.1 <= a_mtime a) groups →
  (∀ p, p ∈ rest → p.1 < h.1) → h.1 = a_mtime a → a_id a ∈ h.2 →
  (h.1, h.2 ∖ {[a_id a]}) :: rest
  = left_of (Q ++ [a]) <$> filter (fun g : Z * gset Z => g.1 <= a_mtime a) groups.
Proof.
  intros Hn Ht Hr Hh1 Hh2. symmetry in Ht.
  apply fmap_cons_inv in Ht as (g0 & gs & -> & -> & Hgs). rewrite Hgs, fmap_cons.
  unfold left_of in *. cbn [fst snd] in *. f_equal.
  - rewrite matched_snoc, decide_True by done. f_equal. set_solver.
  - apply fmap_ext_elem. intros g Hg. rewrite matched_snoc, decide_False; [by rewrite union_empty_r_L|].
    intros Heq. assert (Hl : (g.1, g.2 ∖ matched Q g) ∈ (fun g => (g.1, g.2 ∖ matched Q g)) <$> gs)
      by (apply list_elem_of_fmap; eauto).
    specialize (Hr _ Hl). cbn in Hr. lia.
Qed.

Lemma vers_nomatch Q a h rest : a_id a ∉ a_id <$> Q →
  h :: rest = left_of Q <$> filter (fun g : Z * gset Z => g.1 <= a_mtime a) groups →
  (∀ p, p ∈ rest → p.1 < h.1) → h.1 <= a_mtime a → ¬ (h.1 = a_mtime a ∧ a_id a ∈ h.2) →
  h :: rest = left_of (Q ++ [a]) <$> filter (fun g : Z * gset Z => g.1 <= a_mtime a) groups.
Proof.
  intros Hn Ht Hr Hle Hc. rewrite Ht. apply fmap_ext_elem. intros g Hg.
  unfold left_of. rewrite matched_snoc. case_decide as Heq; [|by rewrite union_empty_r_L].
  destruct (decide (a_id a ∈ g.2)) as [Hin|Hout]; [|f_equal; set_solver].
  exfalso. assert (Hl : left_of Q g ∈ h :: rest) by (rewrite Ht; apply list_elem_of_fmap; eauto).
  apply elem_of_cons in Hl as [Hl|Hl].
  - apply Hc. rewrite <- Hl. unfold left_of. cbn [fst snd]. split; [done|].
    apply elem_of_difference. split; [done|]. intros Hm. apply Hn. exact (matched_ids Q g _ Hm).
  - specialize (Hr _ Hl). unfold left_of in Hr. cbn [fst] in Hr. lia.
Qed.

Lemma before_item P a s S : stream = P ++ (a, s) :: S →
  (∀ b, b ∈ fst <$> P → a_mtime a <= a_mtime b) ∧ a_id a ∉ a_id <$> (fst <$> P).
Proof.
  intros Hs. split.
  - pose proof Hsort as Hso. rewrite Hs in Hso. apply SS_app in Hso as [Hc _].
    intros b Hb. apply list_elem_of_fmap in Hb as (x & -> & Hx).
    exact (Hc x (a, s) Hx ltac:(left)).
  - pose proof Hnd as Hd. rewrite Hs, !fmap_app in Hd. apply NoDup_app in Hd as (_ & Hd & _).
    intros Hx. apply (Hd _ Hx). rewrite !fmap_cons. left.
Qed.

Lemma early_snoc (P : list (attr * gset Z)) (a : attr) (s : gset Z) : (∀ P1 b s1 S1, P = P1 ++ (b, s1) :: S1 → ¬ early_at (fst <$> P1) b) →
  ¬ early_at (fst <$> P) a →
  ∀ P1 b s1 S1, P ++ [(a, s)] = P1 ++ (b, s1) :: S1 → ¬ early_at (fst <$> P1) b.
Proof.
  intros H7 Hna P1 b s1 S1 E.
  apply app_snoc_split in E as [(-> & E & _)|(S1' & _ & E)].
  - injection E as -> _. exact Hna.
  - exact (H7 _ _ _ _ E).
Qed.

Lemma at_item P a s S : stream = P ++ (a, s) :: S →
  ids P ⊆ s ∧ a_id a ∈ s ∧ s ⊆ sf ∧ (∀ e, e ∈ S → a_mtime e.1 <= a_mtime a) ∧
  (a_id a ∉ (a_id <$> (fst <$> S))) ∧ a_id a ∈ rids.
Proof.
  intros Hs.
  pose proof Hsnap as Hn. rewrite Hs in Hn. apply snaps_app_inv in Hn.
  destruct Hn as (H1 & H2 & H3 & _).
  pose proof Hsort as Hso. rewrite Hs in Hso. apply SS_app in Hso as [_ Hso2].
  apply StronglySorted_inv in Hso2 as [_ Hf]. rewrite Forall_forall in Hf.
  pose proof Hnd as Hd. rewrite Hs, !fmap_app in Hd. apply NoDup_app in Hd as (_ & _ & Hd).
  rewrite !fmap_cons in Hd. apply NoDup_cons in Hd as [Hd _].
  split_and!; [set_solver|done|done| |done|].
  - intros e He. exact (Hf e He).
  - unfold rids. rewrite Hs, !fmap_app, !fmap_cons. apply elem_of_app. right. left.
Qed.

Lemma seen_covers P a s S p x : stream = P ++ (a, s) :: S → ver p → x ∈ p.2 →
  a_mtime a < p.1 → x ∈ rids → x ∈ s.
Proof.
  intros Hs (g & Hg & Heq & Hsub) Hx Hlt Hr.
  apply list_elem_of_fmap in Hr as (c & -> & Hc).
  pose proof (Hfwd g (a_id c) c Hg (Hsub _ Hx) Hc eq_refl) as Hle.
  destruct (at_item P a s S Hs) as (H1 & H2 & H3 & H4 & H5 & H6).
  rewrite Hs, fmap_app in Hc. apply elem_of_app in Hc as [Hc|Hc].
  - apply H1. unfold ids. apply elem_of_list_to_set. apply list_elem_of_fmap. eauto.
  - rewrite fmap_cons in Hc. apply elem_of_cons in Hc as [Hc|Hc]; [simpl in Hc; subst c; lia|].
    apply list_elem_of_fmap in Hc as (e & -> & He). specialize (H4 e He). lia.
Qed.

Lemma merge_sound S : ∀ P st n t u r, stream = P ++ S → n = Z.of_nat (length P) →
  INV P S st → merge_loop count n S sf st = (t, u, r) → OUT t u r.
Proof.
  induction S as [|[a s] S IH]; intros P st n t u r Hs Hn Hinv Hrun;
    destruct Hinv as (J1 & J2a & J2b & J2c & J3 & J4 & J5a & J5b & J6 & J7 & J8).
  - simpl in Hrun. injection Hrun as <- <- <-.
    assert (Hsub : ups st `sublist_of` fst <$> stream) by (rewrite Hs, app_nil_r; done).
    assert (O7 : ∀ P' a' s' S', stream = P' ++ (a', s') :: S' → ¬ early_at (fst <$> P') a').
    { intros P' a' s' S' E. rewrite Hs, app_nil_r in E. exact (J7 _ _ _ _ E). }
    case_decide as H0.
    + split_and!; try done. intros _ x Hx Hr. by destruct (J4 x Hx Hr) as [?|[? _]].
    + destruct (J1 H0) as (Hver & Hss & Hpd & Hrem). rewrite Forall_forall in Hver.
      change (OUT Full (ups st) (rem st ++ mj sf (his st :: his_rest st))).
      split_and!.
      * intros x Hx. apply elem_of_app in Hx as [Hx|Hx]; [by apply J2a|].
        apply elem_of_mj in Hx as (p & Hp & Hxp & Hxs).
        destruct (Hver p Hp) as (g & Hg & _ & Hsub'). split; [exists g; set_solver|].
        intros Hr. apply Hxs, Hsf. done.
      * apply NoDup_app. split_and!; [done| |by apply NoDup_mj].
        intros x Hx Hx'. apply elem_of_mj in Hx' as (p & Hp & Hxp & _).
        exact (J2c H0 x p Hx Hp Hxp).
      * done.
      * done.
      * intros _ x Hx Hr. apply elem_of_app.
        destruct (J4 x Hx Hr) as [?|[_ (p & Hp & Hxp)]]; [by left|right].
        apply elem_of_mj. exists p. split_and!; [done|done|]. intros Hs'. apply Hr, Hsf, Hs'.
      * discriminate.
      * intros _. exact O7.
  - simpl in Hrun.
    destruct (at_item P a s S Hs) as (Hi1 & Hi2 & Hi3 & Hi4 & Hi5 & Hi6).
    destruct (before_item P a s S Hs) as (Hb1 & Hb2).
    assert (Hs' : stream = (P ++ [(a, s)]) ++ S) by (rewrite Hs, <- app_assoc; done).
    assert (Hn' : n + 1 = Z.of_nat (length (P ++ [(a, s)]))) by (rewrite length_app; simpl; lia).
    assert (HaS : (a, s) ∈ (a, s) :: S) by left.
    assert (HS : ∀ b, b ∈ S → b ∈ (a, s) :: S) by (intros; by right).
    assert (Hsubl : ∀ v, v `sublist_of` fst <$> P → v ++ [a] `sublist_of` fst <$> (P ++ [(a, s)]))
      by (intros v Hv; rewrite fmap_app; apply sublist_app; [done|reflexivity]).
    assert (Hsubw : ∀ v, v `sublist_of` fst <$> P → v `sublist_of` fst <$> (P ++ [(a, s)]))
      by (intros v Hv; rewrite fmap_app; by apply sublist_inserts_r).
    assert (HPa : fst <$> (P ++ [(a, s)]) = (fst <$> P) ++ [a]) by (rewrite fmap_app; done).
    assert (Hwid : ∀ b, b ∈ fst <$> P → b ∈ fst <$> (P ++ [(a, s)]))
      by (intros b Hb; rewrite HPa; apply elem_of_app; by left).
    assert (Haw : a ∈ fst <$> (P ++ [(a, s)])) by (rewrite HPa; apply elem_of_app; right; left).
    case_decide as H0.
    + refine (IH _ _ _ _ _ _ Hs' Hn' _ Hrun). unfold INV; cbn [remains his his_rest ups rem].
      assert (Hna : ¬ early_at (fst <$> P) a).
      { intros [Hu _]. destruct (J3 _ HaS Hu) as [? _]. contradiction. }
      split_and!; try done.
      * intros e He. apply J3, HS, He.
      * intros v Hv. apply elem_of_app in Hv as [Hv|Hv]; [by apply J5a|].
        apply list_elem_of_singleton in Hv as ->. intros Hu.
        destruct (J3 _ HaS Hu) as [? _]. contradiction.
      * by apply Hsubl.
      * exact (early_snoc P a s J7 Hna).
      * intros x Hx. destruct (J8 x Hx) as (g & Hg & Hxg & b & Hb & Hlt).
        exists g. split_and!; [done|done|]. exists b. split; [by apply Hwid|done].
    + destruct (J1 H0) as (Hver & Hss & Hpd & Hrem). rewrite Forall_forall in Hver.
      destruct (advance (a_mtime a) s (his st) (his_rest st) (remains st) (rem st))
        as [b [[[h rest] r'] rm]] eqn:Ea.
      apply advance_spec in Ea as (passed & tail & Hpt & Hrm & Hr' & Hpass & Hb).
      assert (Hpv : ∀ p, p ∈ passed → p ∈ his st :: his_rest st)
        by (intros p Hp; rewrite Hpt; apply elem_of_app; by left).
      assert (Htv : ∀ p, p ∈ tail → p ∈ his st :: his_rest st)
        by (intros p Hp; rewrite Hpt; apply elem_of_app; by right).
      assert (Hvt : ∀ p, p ∈ tail → ver p) by (intros p Hp; apply Hver, Htv, Hp).
      assert (Hrm1 : ∀ x, x ∈ rm → in_hist x ∧ x ∉ rids).
      { intros x Hx. rewrite Hrm in Hx. apply elem_of_app in Hx as [Hx|Hx]; [by apply J2a|].
        apply elem_of_mj in Hx as (p & Hp & Hxp & Hxs).
        destruct (Hver p (Hpv p Hp)) as (g & Hg & _ & Hsub'). split; [exists g; set_solver|].
        intros Hr. apply Hxs.
        exact (seen_covers P a s S p x Hs (Hver p (Hpv p Hp)) Hxp (Hpass p Hp) Hr). }
      assert (Hrm4 : ∀ x, x ∈ rm → ∃ g, g ∈ groups ∧ x ∈ g.2 ∧ a_mtime a < g.1).
      { intros x Hx. rewrite Hrm in Hx. apply elem_of_app in Hx as [Hx|Hx].
        - destruct (J8 x Hx) as (g & Hg & Hxg & b' & Hb' & Hlt).
          specialize (Hb1 b' Hb'). exists g. split_and!; [done|done|lia].
        - apply elem_of_mj in Hx as (p & Hp & Hxp & _).
          destruct (Hver p (Hpv p Hp)) as (g & Hg & Hg1 & Hsub').
          specialize (Hpass p Hp). exists g. split_and!; [done|set_solver|lia]. }
      assert (Hrm5 : ∀ x, x ∈ rm → ∃ g, g ∈ groups ∧ x ∈ g.2 ∧
                 ∃ b', b' ∈ fst <$> (P ++ [(a, s)]) ∧ a_mtime b' < g.1).
      { intros x Hx. destruct (Hrm4 x Hx) as (g & Hg & Hxg & Hlt).
        exists g. split_and!; [done|done|]. exists a. split; [exact Haw|exact Hlt]. }
      assert (Hpd' : pdisj passed ∧ pdisj tail ∧ ∀ p q, p ∈ passed → q ∈ tail → p.2 ## q.2)
        by (apply pdisj_app; rewrite <- Hpt; exact Hpd).
      destruct Hpd' as (Hpd1 & Hpd2 & Hpd3).
      assert (Hrm2 : NoDup rm).
      { rewrite Hrm. apply NoDup_app. split_and!; [done| |by apply NoDup_mj].
        intros x Hx Hx'. apply elem_of_mj in Hx' as (p & Hp & Hxp & _).
        exact (J2c H0 x p Hx (Hpv p Hp) Hxp). }
      assert (Hrm3 : ∀ x p, x ∈ rm → p ∈ tail → x ∉ p.2).
      { intros x p Hx Hp. rewrite Hrm in Hx. apply elem_of_app in Hx as [Hx|Hx];
          [exact (J2c H0 x p Hx (Htv p Hp))|].
        apply elem_of_mj in Hx as (q & Hq & Hxq & _). specialize (Hpd3 q p Hq Hp). set_solver. }
      assert (Hj4 : ∀ x, in_hist x → x ∉ rids → x ∈ rm ∨ ∃ p, p ∈ tail ∧ x ∈ p.2).
      { intros x Hx Hr. rewrite Hrm.
        destruct (J4 x Hx Hr) as [Hx'|[_ (p & Hp & Hxp)]]; [left; apply elem_of_app; by left|].
        rewrite Hpt in Hp. apply elem_of_app in Hp as [Hp|Hp].
        - left. apply elem_of_app. right. apply elem_of_mj. exists p. split_and!; [done|done|].
          intros Hxs. apply Hr, Hsf, Hi3, Hxs.
        - right. eauto. }
      assert (Hj3 : ∀ e, e ∈ (a, s) :: S → unch e.1 → a_mtime e.1 <= a_mtime a →
                 ∃ p, p ∈ tail ∧ p.1 = a_mtime e.1 ∧ a_id e.1 ∈ p.2).
      { intros e He Hu Hle. destruct (J3 e He Hu) as [_ (p & Hp & Hp1 & Hp2)].
        rewrite Hpt in Hp. apply elem_of_app in Hp as [Hp|Hp]; [|eauto].
        specialize (Hpass p Hp). lia. }
      assert (Hsz : r' = Z.of_nat (psize tail)).
      { rewrite Hr', Hrem, Hpt, psize_app. lia. }
      destruct Hb as [[-> ->] | (-> & -> & Hnlt)].
      * refine (IH _ _ _ _ _ _ Hs' Hn' _ Hrun). unfold INV; cbn [remains his his_rest ups rem].
        assert (r' = 0) as Hr0 by (rewrite Hsz; done).
        assert (Hna : ¬ early_at (fst <$> P) a).
        { intros [Hu _]. destruct (Hj3 (a, s) HaS Hu ltac:(simpl; lia)) as (p & Hp & _).
          inversion Hp. }
        split_and!; try done.
        -- intros e He Hu. destruct (Hj3 e (HS e He) Hu (Hi4 e He)) as (p & Hp & _). inversion Hp.
        -- intros x Hx Hr. destruct (Hj4 x Hx Hr) as [?|(p & Hp & _)]; [by left|inversion Hp].
        -- by apply Hsubw.
        -- exact (early_snoc P a s J7 Hna).
      * assert (Hss' : StronglySorted (fun p q : Z * gset Z => q.1 < p.1) (h :: rest))
          by (rewrite Hpt in Hss; apply SS_app in Hss; tauto).
        pose proof Hss' as Hss''. apply StronglySorted_inv in Hss'' as [Hssr Hfr].
        rewrite Forall_forall in Hfr.
        assert (Htail : h :: rest
                  = left_of (fst <$> P) <$> filter (fun g : Z * gset Z => g.1 <= a_mtime a) groups).
        { apply (vers_tail (fst <$> P) (a_mtime a) passed); [exact Hb1| |exact Hpass|].
          - rewrite <- (J6 H0). exact Hpt.
          - intros p Hp. apply elem_of_cons in Hp as [->|Hp]; [lia|].
            specialize (Hfr p Hp). simpl in Hfr. lia. }
        destruct (bool_decide (h.1 = a_mtime a) && bool_decide (a_id a ∈ h.2)) eqn:Ec.
        -- apply andb_true_iff in Ec as [Ec1 Ec2].
           apply bool_decide_eq_true in Ec1, Ec2.
           assert (Hsz2 : size (h.2 ∖ {[a_id a]}) = (size h.2 - 1)%nat)
             by (rewrite size_difference by set_solver; rewrite size_singleton; lia).
           assert (Hh1 : (1 <= size h.2)%nat).
           { pose proof (psize_pos [h] h (a_id a) ltac:(left) Ec2) as Hp.
             unfold psize in Hp. simpl in Hp. lia. }
           assert (Hnew : r' - 1 = Z.of_nat (psize ((h.1, h.2 ∖ {[a_id a]}) :: rest))).
           { rewrite Hsz. unfold psize. simpl. rewrite Hsz2. lia. }
           assert (Hvm : (h.1, h.2 ∖ {[a_id a]}) :: rest
                     = left_of ((fst <$> P) ++ [a])
                         <$> filter (fun g : Z * gset Z => g.1 <= a_mtime a) groups).
           { apply vers_match; [exact Hb2|exact Htail| |exact Ec1|exact Ec2].
             intros p Hp. exact (Hfr p Hp). }
           assert (Hunr : unresolved ((fst <$> P) ++ [a]) (a_mtime a) = r' - 1).
           { unfold unresolved. rewrite <- Hvm, Hnew. reflexivity. }
           case_decide as Hearly.
           ++ injection Hrun as <- <- <-. split_and!; try done.
              ** rewrite Hs, fmap_app. by apply sublist_inserts_r.
              ** intros _. exists P, a, s, S. split_and!; [exact Hs| | |exact J5b|exact Hrm4].
                 --- split.
                     +++ destruct (Hvt h ltac:(left)) as (g & Hg & Hg1 & Hg2).
                         exists g. split_and!; [done|set_solver|lia].
                     +++ rewrite length_fmap, Hunr. lia.
                 --- exact J7.
           ++ refine (IH _ _ _ _ _ _ Hs' Hn' _ Hrun). unfold INV; cbn [remains his his_rest ups rem].
              assert (Hin : ∀ x p, p ∈ h :: rest → x ∈ p.2 → x ≠ a_id a →
                        ∃ q, q ∈ (h.1, h.2 ∖ {[a_id a]}) :: rest ∧ q.1 = p.1 ∧ x ∈ q.2).
              { intros x p Hp Hxp Hxa. apply elem_of_cons in Hp as [->|Hp].
                - exists (h.1, h.2 ∖ {[a_id a]}). split_and!; [left|done|simpl; set_solver].
                - exists p. split_and!; [by right|done|done]. }
              assert (Hna : ¬ early_at (fst <$> P) a).
              { intros [_ He]. rewrite length_fmap, Hunr in He. apply Hearly. lia. }
              split_and!; try done.
              ** intros _. split_and!.
                 --- rewrite Forall_forall. intros q Hq. apply elem_of_cons in Hq as [->|Hq].
                     +++ destruct (Hvt h ltac:(left)) as (g & Hg & Hg1 & Hg2).
                         exists g. simpl. split_and!; [done|done|set_solver].
                     +++ apply Hvt. by right.
                 --- constructor; [done|]. rewrite Forall_forall. intros q Hq. apply Hfr, Hq.
                 --- simpl. destruct Hpd2 as [Hpd2a Hpd2b]. split; [|done].
                     intros q Hq. specialize (Hpd2a q Hq). set_solver.
                 --- done.
              ** intros _ x q Hx Hq. apply elem_of_cons in Hq as [->|Hq].
                 --- pose proof (Hrm3 x h Hx ltac:(left)). simpl. set_solver.
                 --- apply (Hrm3 x q Hx). by right.
              ** intros e He Hu.
                 destruct (Hj3 e (HS e He) Hu (Hi4 e He)) as (p & Hp & Hp1 & Hp2).
                 assert (a_id e.1 ≠ a_id a) as Hne.
                 { intros Heq. apply Hi5. rewrite <- Heq. apply list_elem_of_fmap.
                   exists e.1. split; [done|]. apply list_elem_of_fmap. eauto. }
                 destruct (Hin _ p Hp Hp2 Hne) as (q & Hq & Hq1 & Hq2).
                 pose proof (psize_pos _ q _ Hq Hq2). split; [lia|]. exists q.
                 split_and!; [done|lia|done].
              ** intros x Hx Hr. destruct (Hj4 x Hx Hr) as [?|(p & Hp & Hxp)]; [by left|right].
                 assert (x ≠ a_id a) as Hne by (intros ->; contradiction).
                 destruct (Hin _ p Hp Hxp Hne) as (q & Hq & _ & Hq2).
                 pose proof (psize_pos _ q _ Hq Hq2). split; [lia|eauto].
              ** by apply Hsubw.
              ** intros _. rewrite HPa, vers_snoc by exact Hb1. exact Hvm.
              ** exact (early_snoc P a s J7 Hna).
        -- assert (Hnu : ¬ unch a).
           { intros Hu.
             destruct (Hj3 (a, s) HaS Hu ltac:(simpl; lia)) as (p & Hp & Hp1 & Hp2).
             simpl in Hp1, Hp2. apply elem_of_cons in Hp as [->|Hp].
             - apply andb_false_iff in Ec as [E|E]; apply bool_decide_eq_false in E; contradiction.
             - specialize (Hfr p Hp). simpl in Hfr. lia. }
           refine (IH _ _ _ _ _ _ Hs' Hn' _ Hrun). unfold INV; cbn [remains his his_rest ups rem].
           split_and!; try done.
           ** intros _. split_and!; [rewrite Forall_forall; exact Hvt|exact Hss'|exact Hpd2|exact Hsz].
           ** intros e He Hu.
              destruct (Hj3 e (HS e He) Hu (Hi4 e He)) as (p & Hp & Hp1 & Hp2).
              pose proof (psize_pos _ p _ Hp Hp2). split; [lia|eauto].
           ** intros x Hx Hr. destruct (Hj4 x Hx Hr) as [?|(p & Hp & Hxp)]; [by left|right].
              pose proof (psize_pos _ p _ Hp Hxp). split; [lia|eauto].
           ** intros v Hv. apply elem_of_app in Hv as [Hv|Hv]; [by apply J5a|].
              apply list_elem_of_singleton in Hv as ->. exact Hnu.
           ** by apply Hsubl.
           ** intros _. rewrite HPa, vers_snoc by exact Hb1.
              apply vers_nomatch; [exact Hb2|exact Htail| |lia|].
              --- intros p Hp. exact (Hfr p Hp).
              --- intros [E1 E2].
                  apply andb_false_iff in Ec as [E|E]; apply bool_decide_eq_false in E; contradiction.
           ** exact (early_snoc P a s J7 (fun H => Hnu (proj1 H))).
Qed.

End merge.

(** C3 (amended). Let the listing of a directory be read through [iterdir]
    with its reorder of directories, let the stream it yields be in
    non-increasing [mtime] order, and let the history groups be what the
    spec says [select_mtime_groups] returns: ordered by strictly decreasing
    [mtime], pairwise disjoint, [remains] their total size. Assume an item
    present in both never has a smaller [mtime] remotely than in the
    history. Then every id [diff_dir] puts in the remove list is a history
    id absent from the listing, with no id twice; every upserted item is
    a listed item, in stream order, and never one recorded in the history
    with the same [mtime]. When [diff_dir] takes the return after the loop,
    its remove list holds every history id absent from the listing.
    [diff_dir] takes the early return exactly when some item satisfies
    [early_at], and then at the first such item: one recorded in the
    history with the same [mtime] whose 1-based position plus the history
    ids still unresolved once it is matched equals [count]. The lists are
    then those gathered before that item: the upserted items precede it,
    and every removed id belongs to a history group of larger [mtime]; no
    completeness holds (see [diff_dir_early_exit]). *)
Theorem diff_dir_reconcile (pages : list (Paginator.resp attr)) (remains : Z)
    (groups : list (Z * gset Z)) (count : Z) (stream : list (attr * gset Z)) (sf : gset Z)
    (t : tag) (u : list attr) (r : list Z) :
  iterdir pages = inr (count, stream, sf) →
  StronglySorted (fun a b : attr * gset Z => a_mtime b.1 <= a_mtime a.1) stream →
  StronglySorted (fun g g' : Z * gset Z => g'.1 < g.1) groups →
  (∀ i j g g', i ≠ j → groups !! i = Some g → groups !! j = Some g' → g.2 ## g'.2) →
  remains = Z.of_nat (sum_list_with (fun g => size g.2) groups) →
  (∀ g x a, g ∈ groups → x ∈ g.2 → a ∈ mjoin (Paginator.r_data <$> pages) →
     a_id a = x → g.1 <= a_mtime a) →
  diff_dir false pages remains groups = inr (t, u, r) →
  (∀ x, x ∈ r → (∃ g, g ∈ groups ∧ x ∈ g.2) ∧
     x ∉ (a_id <$> mjoin (Paginator.r_data <$> pages))) ∧
  NoDup r ∧
  (∀ v, v ∈ u → v ∈ mjoin (Paginator.r_data <$> pages) ∧
     ¬ ∃ g, g ∈ groups ∧ a_id v ∈ g.2 ∧ g.1 = a_mtime v) ∧
  u `sublist_of` (fst <$> stream) ∧
  (t = Full → ∀ x, (∃ g, g ∈ groups ∧ x ∈ g.2) →
     x ∉ (a_id <$> mjoin (Paginator.r_data <$> pages)) → x ∈ r) ∧
  (t = Early → ∃ P a s S, stream = P ++ (a, s) :: S ∧ early_at count groups (fst <$> P) a ∧
     (∀ P1 b s1 S1, P = P1 ++ (b, s1) :: S1 → ¬ early_at count groups (fst <$> P1) b) ∧
     u `sublist_of` (fst <$> P) ∧
     ∀ x, x ∈ r → ∃ g, g ∈ groups ∧ x ∈ g.2 ∧ a_mtime a < g.1) ∧
  (t = Full → ∀ P a s S, stream = P ++ (a, s) :: S → ¬ early_at count groups (fst <$> P) a).
Proof.
  intros Hit Hsort Hgs Hdisj Hrem Hfwd Hrun.
  unfold diff_dir in Hrun. rewrite Hit in Hrun.
  assert (Hfo : fix_order (mjoin (Paginator.r_data <$> pages)) ∅ [] = inr (stream, sf)).
  { unfold iterdir in Hit. destruct pages as [|p0 ps]; [discriminate|].
    destruct (fix_order _ ∅ []) as [|[out sf']]; [discriminate|].
    injection Hit as _ -> ->. reflexivity. }
  set (items := mjoin (Paginator.r_data <$> pages)) in *.
  apply fix_order_spec in Hfo as (Hp & Hsf & Hnd & _ & Hsn); [|intros d Hd; inversion Hd].
  simpl in Hp.
  assert (Hr : ∀ x, x ∈ a_id <$> (fst <$> stream) ↔ x ∈ a_id <$> items)
    by (intros x; by rewrite Hp).
  assert (Hnd' : NoDup (a_id <$> (fst <$> stream)))
    by (rewrite Hp; done).
  assert (Hsf' : ∀ x, x ∈ sf ↔ x ∈ a_id <$> (fst <$> stream))
    by (intros x; rewrite Hsf, Hr; set_solver).
  assert (Hfwd' : ∀ g x a, g ∈ groups → x ∈ g.2 → a ∈ fst <$> stream → a_id a = x → g.1 <= a_mtime a)
    by (intros g x a Hg Hx Ha; rewrite Hp in Ha; eauto).
  assert (Hunch : ∀ e, ReconcileFacts.unch groups e → remains ≠ 0).
  { intros e (g & Hg & He & _). pose proof (psize_pos groups g _ Hg He) as Hps.
    unfold psize in Hps. lia. }
  assert (Hout : ∀ st, INV count groups stream [] stream st →
            merge_loop count 0 stream sf st = (t, u, r) → OUT count groups stream t u r).
  { intros st Hinv Hm. exact (merge_sound count groups stream sf Hsort Hnd' Hsn Hsf' Hfwd'
                                 stream [] st 0 t u r eq_refl eq_refl Hinv Hm). }
  assert (Hres : OUT count groups stream t u r).
  { unfold diff_dir_merge in Hrun. case_decide as H0.
    - injection Hrun as Hm. eapply Hout; [|exact Hm].
      unfold INV; cbn [Reconcile.remains his his_rest ups rem]. split_and!; try done.
      + intros x Hx; inversion Hx.
      + constructor.
      + intros e _ He. destruct (Hunch e.1 He). done.
      + intros x (g & Hg & Hx) _. pose proof (psize_pos groups g _ Hg Hx) as Hps.
        unfold psize in Hps. lia.
      + intros v Hv; inversion Hv.
      + intros Hne. by destruct Hne.
      + intros x Hx; inversion Hx.
    - destruct groups as [|g rest] eqn:Eg; [discriminate|].
      injection Hrun as Hm. eapply Hout; [|exact Hm].
      unfold INV; cbn [Reconcile.remains his his_rest ups rem]. split_and!; try done.
      + intros _. split_and!.
        * rewrite Forall_forall. intros q Hq. exists q. split_and!; [done|done|set_solver].
        * done.
        * by apply pdisj_of_lookup.
        * done.
      + intros x Hx; inversion Hx.
      + constructor.
      + intros _ x p Hx; inversion Hx.
      + intros e _ (q & Hq & He1 & He2). split; [done|]. exists q. eauto.
      + intros x (q & Hq & Hx) _. right. split; [done|]. eauto.
      + intros v Hv; inversion Hv.
      + intros _. exact (eq_sym (vers_nil (g :: rest) stream sf Hsort Hnd' Hsn Hsf' Hfwd')).
      + intros P1 ? ? ? E. by destruct P1.
      + intros x Hx; inversion Hx. }
  destruct Hres as (O1 & O2 & O3 & O4 & O5 & O6 & O7). unfold rids in *. split_and!.
  - intros x Hx. destruct (O1 x Hx) as [Hh Hn]. split; [done|]. by rewrite <- Hr.
  - done.
  - intros v Hv. split; [|apply (O3 v Hv)].
    rewrite <- Hp. eapply elem_of_sublist; [exact Hv|exact O4].
  - done.
  - intros Ht x Hx Hn. apply O5; [done|done|]. by rewrite Hr.
  - exact O6.
  - exact O7.
Qed.

(** The counterexample to C3: on [pages_balanced] the first item makes
    [n + remains] equal to [count], so [diff_dir] returns at once; the
    removed file 2 is not in the remove list and the new file 4 is not in
    the upsert list. *)
Lemma diff_dir_early_exit :
  diff_dir false pages_balanced 3 groups_balanced = inr (Early, [], []) ∧
  (∃ g, g ∈ groups_balanced ∧ 2 ∈ g.2) ∧
  (2 ∉ (a_id <$> mjoin (Paginator.r_data <$> pages_balanced))) ∧
  (mkAttr 4 95 false ∈ mjoin (Paginator.r_data <$> pages_balanced)) ∧
  ¬ ∃ g, g ∈ groups_balanced ∧ 4 ∈ g.2.
Proof.
  split_and!.
  - vm_compute. reflexivity.
  - exists (90, {[2]}). split; [apply list_elem_of_further, list_elem_of_here|set_solver].
  - apply (bool_decide_unpack _). vm_compute. reflexivity.
  - apply list_elem_of_further, list_elem_of_here.
  - intros (g & Hg & H4). unfold groups_balanced in Hg.
    repeat (apply elem_of_cons in Hg as [->|Hg]; [cbn in H4; set_solver|]). inversion Hg.
Qed.

(** When the last history group is passed, [next(his_it)] raises
    [StopIteration] and the [continue] skips the item: here the new file 2
    is in neither list. *)
Example diff_dir_skips_item_after_last_group :
  diff_dir false [Paginator.mkResp [mkAttr 2 50 false] 1 0 7] 1 [(100, {[1]})]
    = inr (Full, [], [1]).
Proof. vm_compute. reflexivity. Qed.

Lemma diff_dir_reconcile_witness :
  diff_dir false pages_mixed 4 groups_mixed
    = inr (Full, [mkAttr 6 95 true; mkAttr 3 85 false; mkAttr 7 60 false; mkAttr 9 40 false], [2]) ∧
  (∀ x, (∃ g, g ∈ groups_mixed ∧ x ∈ g.2) →
     x ∉ (a_id <$> mjoin (Paginator.r_data <$> pages_mixed)) → x ∈ [2]) ∧
  diff_dir false pages_balanced 3 groups_balanced = inr (Early, [], []) ∧
  (∃ P a s S, stream_balanced = P ++ (a, s) :: S ∧ early_at 3 groups_balanced (fst <$> P) a).
Proof.
  split; [vm_compute; reflexivity|]. split; [|split; [vm_compute; reflexivity|]].
  2:{ destruct (diff_dir_reconcile pages_balanced 3 groups_balanced 3 stream_balanced sf_balanced
                  Early [] []) as (_ & _ & _ & _ & _ & H & _).
      - vm_compute. reflexivity.
      - unfold stream_balanced. repeat constructor; cbn; lia.
      - unfold groups_balanced. repeat constructor; cbn; lia.
      - unfold groups_balanced.
        intros [|[|[|i]]] [|[|[|j]]] g g' Hij Hi Hj; cbn in Hi, Hj;
          try discriminate; injection Hi as <-; injection Hj as <-; try lia; cbn; set_solver.
      - vm_compute. reflexivity.
      - intros g x a Hg Hx Ha <-.
        assert (Hd : Forall (fun g : Z * gset Z => Forall (fun a : attr => a_id a ∈ g.2 → g.1 <= a_mtime a)
                       (mjoin (Paginator.r_data <$> pages_balanced))) groups_balanced)
          by (apply (bool_decide_unpack _); vm_compute; reflexivity).
        rewrite Forall_forall in Hd. specialize (Hd g Hg). rewrite Forall_forall in Hd.
        exact (Hd a Ha Hx).
      - vm_compute. reflexivity.
      - destruct (H eq_refl) as (P & a & s & S & E & Ha & _). exists P, a, s, S. split; [exact E|exact Ha]. }
  destruct (diff_dir_reconcile pages_mixed 4 groups_mixed 6 stream_mixed sf_mixed Full
              [mkAttr 6 95 true; mkAttr 3 85 false; mkAttr 7 60 false; mkAttr 9 40 false] [2])
    as (_ & _ & _ & _ & H & _ & _).
  - vm_compute. reflexivity.
  - unfold stream_mixed. repeat constructor; cbn; lia.
  - unfold groups_mixed. repeat constructor; cbn; lia.
  - unfold groups_mixed.
    intros [|[|[|[|i]]]] [|[|[|[|j]]]] g g' Hij Hi Hj; cbn in Hi, Hj;
      try discriminate; injection Hi as <-; injection Hj as <-; try lia; cbn; set_solver.
  - vm_compute. reflexivity.
  - intros g x a Hg Hx Ha <-.
    assert (Hd : Forall (fun g : Z * gset Z => Forall (fun a : attr => a_id a ∈ g.2 → g.1 <= a_mtime a)
                   (mjoin (Paginator.r_data <$> pages_mixed))) groups_mixed)
      by (apply (bool_decide_unpack _); vm_compute; reflexivity).
    rewrite Forall_forall in Hd. specialize (Hd g Hg). rewrite Forall_forall in Hd.
    exact (Hd a Ha Hx).
  - vm_compute. reflexivity.
  - exact (H eq_refl).
Defined.

End ReconcileFacts.

Module StoreLog.
Import Store StoreFacts.

(** The event table of [d'] extends the one of [d] by rows whose [_id]
    values are the consecutive AUTOINCREMENT values from [next_seq d]. *)
Definition appended (d d' : db) : Prop :=
  disable_event d' = disable_event d /\
  exists l, event d' = event d ++ l /\
    next_seq d' = next_seq d + Z.of_nat (length l) /\
    (forall k e, l !! k = Some e -> ev_seq e = next_seq d + Z.of_nat k) /\
    (disable_event d = true -> l = []).

Definition same_log (d d' : db) : Prop :=
  event d' = event d /\ next_seq d' = next_seq d /\ disable_event d' = disable_event d.

Lemma same_log_appended d d' : same_log d d' -> appended d d'.
Proof.
  intros (He & Hn & Hd). split; [done|]. exists []. rewrite He, Hn, app_nil_r.
  split_and!; [done|cbn; lia|by intros []|done].
Qed.

Lemma same_log_refl d : same_log d d.
Proof. done. Qed.

Lemma same_log_trans d1 d2 d3 : same_log d1 d2 -> same_log d2 d3 -> same_log d1 d3.
Proof. intros (?&?&?) (?&?&?). split_and!; congruence. Qed.

Lemma appended_trans d1 d2 d3 : appended d1 d2 -> appended d2 d3 -> appended d1 d3.
Proof.
  intros (Hd1 & l1 & He1 & Hn1 & Hs1 & Hz1) (Hd2 & l2 & He2 & Hn2 & Hs2 & Hz2).
  split; [congruence|]. exists (l1 ++ l2). split_and!.
  - by rewrite He2, He1, app_assoc.
  - rewrite Hn2, Hn1, length_app. lia.
  - intros k e Hk. apply lookup_app_Some in Hk as [Hk|[Hge Hk]]; [by apply Hs1|].
    rewrite (Hs2 _ _ Hk), Hn1. lia.
  - intros Ht. rewrite Hz1 by done. rewrite Hz2 by congruence. done.
Qed.

Lemma same_log_set_data d m : same_log d (set_data d m).
Proof. done. Qed.

Lemma same_log_set_dirlen d m : same_log d (set_dirlen d m).
Proof. done. Qed.

Lemma dirlen_update_log fuel i s d d' :
  dirlen_update fuel i s d = Some d' -> same_log d d' /\ data d' = data d.
Proof.
  revert i s d d'. induction fuel as [|fuel IH]; intros i s d d' H; cbn in H.
  - destruct (dirlen d !! i) as [o|]; [|by injection H as <-].
    inv_bind H E. destruct (_ && _); [discriminate | by injection H as <-].
  - destruct (dirlen d !! i) as [o|]; [|by injection H as <-].
    inv_bind H E. destruct (_ && _).
    + destruct (data _ !! i) as [r|].
      * apply IH in H. exact H.
      * by injection H as <-.
    + by injection H as <-.
Qed.

Lemma when_log c s d d' :
  (forall d0 d0', s d0 = Some d0' -> same_log d0 d0') ->
  when_ c s d = Some d' -> same_log d d'.
Proof. intros Hs H. unfold when_ in H. destruct c; [by apply Hs | by injection H as <-]. Qed.

Lemma sel_update_log fuel j i f1 f2 f3 (g : Z -> Z -> Z -> dirlen_row -> option dirlen_row) d d' :
  (dc ← sel f1 i d; tdc ← sel f2 i d; tfc ← sel f3 i d;
   dirlen_update fuel j (g dc tdc tfc) d) = Some d' -> same_log d d'.
Proof.
  intros H. inv_bind H E1. inv_bind H E2. inv_bind H E3.
  by apply dirlen_update_log in H as [? _].
Qed.

Lemma log_insert_appended new d : appended d (log_insert new d).
Proof.
  unfold log_insert. destruct (disable_event d) eqn:Hd; [by apply same_log_appended|].
  split; [done|]. exists [mkEvent (next_seq d) (id new) None (row_json new)
                                  (Some (mkFs "insert" (is_dir new) [Add]))].
  split_and!; [done|cbn; lia| |congruence].
  intros [|k] e Hk; [injection Hk as <-; cbn; lia|done].
Qed.

Lemma log_update_appended old new d : appended d (log_update old new d).
Proof.
  unfold log_update. destruct (disable_event d) eqn:Hd; [by apply same_log_appended|].
  case_decide; [by apply same_log_appended|].
  split; [done|]. eexists [_]. split_and!; [done|cbn; lia| |congruence].
  intros [|k] e Hk; [injection Hk as <-; cbn; lia|done].
Qed.

Lemma trg_data_insert_appended fuel new d d' :
  trg_data_insert fuel new d = Some d' -> appended d d'.
Proof.
  unfold trg_data_insert. intros H. inv_bind H E.
  apply dirlen_update_log in E as [E _]. injection H as <-.
  eapply appended_trans; [|apply log_insert_appended].
  apply same_log_appended. eapply same_log_trans; [|exact E].
  destruct (is_dir new); [apply same_log_set_dirlen|apply same_log_refl].
Qed.

Lemma trg_data_update_appended fuel now old new d d' :
  trg_data_update fuel now old new d = Some d' -> appended d d'.
Proof.
  unfold trg_data_update. intros H.
  inv_bind H E1. apply when_log in E1; [|intros ???; by eapply dirlen_update_log].
  inv_bind H E2. apply when_log in E2;
    [|intros ???; by eapply (sel_update_log _ _ _ _ _ _ (fun a b c p => Some _))].
  inv_bind H E3. apply when_log in E3; [|intros ???; by eapply dirlen_update_log].
  inv_bind H E4. apply when_log in E4;
    [|intros ???; by eapply (sel_update_log _ _ _ _ _ _ (fun a b c p => Some _))].
  injection H as <-.
  eapply appended_trans; [|apply log_update_appended].
  apply same_log_appended.
  eapply same_log_trans; [|exact E4]. eapply same_log_trans; [|exact E3].
  eapply same_log_trans; [|exact E2]. eapply same_log_trans; [|exact E1].
  destruct (data d !! id new); [apply same_log_set_data|apply same_log_refl].
Qed.

Lemma update_row_appended now old new d d' :
  update_row now old new d = Some d' -> appended d d'.
Proof.
  unfold update_row. intros H. case_decide.
  - injection H as <-. by apply same_log_appended.
  - destruct (_triggered new).
    + injection H as <-. by apply same_log_appended.
    + apply trg_data_update_appended in H. exact H.
Qed.

Lemma upsert_row_appended now it d d' :
  upsert_row now it d = Some d' -> appended d d'.
Proof.
  unfold upsert_row. intros H. destruct (data d !! i_id it).
  - by eapply update_row_appended.
  - inv_bind H E. apply trg_data_insert_appended in H. exact H.
Qed.

Lemma upsert_items_appended now its d d' :
  upsert_items now its d = Some d' -> appended d d'.
Proof.
  revert d. induction its as [|it its IH]; intros d H; cbn [upsert_items] in H.
  - injection H as <-. by apply same_log_appended.
  - inv_bind H E. eapply appended_trans; [eapply upsert_row_appended, E|]. by apply IH.
Qed.

Lemma kill_row_appended now i d d' :
  kill_row now i d = Some d' -> appended d d'.
Proof.
  unfold kill_row. intros H. destruct (data d !! i).
  - by eapply update_row_appended.
  - injection H as <-. by apply same_log_appended.
Qed.

Lemma kill_items_appended now ids d d' :
  kill_items now ids d = Some d' -> appended d d'.
Proof.
  revert d. induction ids as [|i ids IH]; intros d H; cbn [kill_items] in H.
  - injection H as <-. by apply same_log_appended.
  - inv_bind H E. eapply appended_trans; [eapply kill_row_appended, E|]. by apply IH.
Qed.

End StoreLog.

Module StoreFrame.
Import Store StoreFacts.

Lemma update_row_data now old new d d' :
  update_row now old new d = Some d' ->
  forall j, j <> id new -> data d' !! j = data d !! j.
Proof.
  unfold update_row. intros H j Hj. case_decide.
  - by injection H as <-.
  - destruct (_triggered new).
    + injection H as <-. cbn. by rewrite lookup_insert_ne by congruence.
    + apply trg_data_update_data in H. rewrite H. cbn [data set_data].
      rewrite lookup_insert_eq. rewrite lookup_insert_ne by congruence.
      by rewrite lookup_insert_ne by congruence.
Qed.

Lemma upsert_row_frame now it d d' :
  upsert_row now it d = Some d' ->
  forall j, j <> i_id it -> data d' !! j = data d !! j.
Proof.
  unfold upsert_row. intros H j Hj. destruct (data d !! i_id it) as [old|].
  - by apply (update_row_data _ _ _ _ _ H).
  - inv_bind H E. apply trg_data_insert_data in H. rewrite H. cbn.
    by rewrite lookup_insert_ne by congruence.
Qed.

Lemma kill_row_frame now i d d' :
  kill_row now i d = Some d' -> forall j, j <> i -> data d' !! j = data d !! j.
Proof.
  unfold kill_row. intros H j Hj. destruct (data d !! i) as [old|].
  - by apply (update_row_data _ _ _ _ _ H).
  - by injection H as <-.
Qed.

Lemma kill_row_keys now i d d' :
  kill_row now i d = Some d' -> forall j, is_Some (data d !! j) -> is_Some (data d' !! j).
Proof.
  intros H j Hj. destruct (decide (j = i)) as [->|Hne];
    [|by rewrite (kill_row_frame _ _ _ _ H j Hne)].
  unfold kill_row in H. destruct (data d !! i) as [old|] eqn:Hold; [|by injection H as <-].
  unfold update_row in H. cbn [mtime] in H. rewrite decide_False in H by lia.
  destruct (_triggered old).
  - injection H as <-. cbn. by rewrite lookup_insert_eq.
  - apply trg_data_update_data in H. rewrite H. cbn. rewrite lookup_insert_eq. by rewrite lookup_insert_eq.
Qed.

Lemma kill_row_dead now i d d' :
  kill_row now i d = Some d' -> is_Some (data d !! i) ->
  (is_alive <$> data d' !! i) = Some false.
Proof.
  unfold kill_row. intros H [old Hold]. rewrite Hold in H.
  unfold update_row in H. cbn [mtime] in H. rewrite decide_False in H by lia.
  destruct (_triggered old).
  - injection H as <-. cbn. by rewrite lookup_insert_eq.
  - apply trg_data_update_data in H. rewrite H. cbn. rewrite lookup_insert_eq. by rewrite lookup_insert_eq.
Qed.

Lemma kill_row_stays_dead now i j d d' :
  kill_row now j d = Some d' -> (is_alive <$> data d !! i) = Some false ->
  (is_alive <$> data d' !! i) = Some false.
Proof.
  intros H Hi. destruct (decide (i = j)) as [->|Hne].
  - apply (kill_row_dead _ _ _ _ H). destruct (data d !! j); [done|discriminate].
  - by rewrite (kill_row_frame _ _ _ _ H i Hne).
Qed.

End StoreFrame.

Module StoreExtra.
Import Store StoreFacts.

Lemma row_json_cols old new : row_json old = row_json new ->
  id old = id new /\ parent_id old = parent_id new /\ is_dir old = is_dir new /\
  mtime old = mtime new /\ is_alive old = is_alive new.
Proof.
  unfold row_json. intros H. injection H as H1 H2 _ _ _ _ H7 _ _ H10 _ H12.
  split_and!; [done|done| |done|].
  - destruct (is_dir old), (is_dir new); done.
  - destruct (is_alive old), (is_alive new); done.
Qed.

Definition touch (now : Z) (i : Z) (d : db) : db :=
  match data d !! i with
  | Some r => set_data d (<[i := bookkeep now r]> (data d))
  | None => d
  end.

Lemma trg_data_update_silent fuel now old new d :
  row_json old = row_json new ->
  trg_data_update fuel now old new d = Some (touch now (id new) d).
Proof.
  intros Hj. destruct (row_json_cols _ _ Hj) as (_ & Hp & Hd & _ & Ha).
  unfold trg_data_update. fold (touch now (id new) d).
  rewrite <- Hp, <- Ha. rewrite bool_decide_eq_true_2 by done.
  assert (Hl : forall d0, log_update old new d0 = d0).
  { intros d0. unfold log_update. destruct (disable_event d0); [done|].
    by rewrite decide_True. }
  destruct (is_alive old), (is_dir old); cbn; apply f_equal, Hl.
Qed.

Lemma upd_idem {A} (o : option A) (a : A) : upd o (upd o a) = upd o a.
Proof. by destruct o. Qed.

Lemma merge_twice n old it :
  row_json (merge (bookkeep n (merge old it)) it) = row_json (bookkeep n (merge old it)).
Proof. unfold merge, bookkeep, row_json. cbn. by rewrite !upd_idem. Qed.

Lemma merge_inserted now it r : insert_row now it = Some r -> row_json (merge r it) = row_json r.
Proof.
  unfold insert_row. intros H.
  destruct (i_parent_id it) as [p|] eqn:Ep; [|discriminate].
  destruct (i_name it) as [nm|] eqn:En; [|discriminate].
  destruct (i_is_dir it) as [b|] eqn:Eb; [|discriminate].
  injection H as <-. unfold merge, row_json. cbn. rewrite Ep, En, Eb. cbn.
  by rewrite !upd_idem.
Qed.

Lemma upsert_row_again now it d1 o2 :
  data d1 !! i_id it = Some o2 -> row_json (merge o2 it) = row_json o2 ->
  exists d2, upsert_row now it d1 = Some d2 /\ event d2 = event d1 /\
    next_seq d2 = next_seq d1 /\ dirlen d2 = dirlen d1 /\
    (row_json <$> data d2 !! i_id it) = (row_json <$> data d1 !! i_id it).
Proof.
  intros Ho Hj. destruct (row_json_cols _ _ Hj) as (_ & _ & _ & Hm & _).
  unfold upsert_row. rewrite Ho. unfold update_row. rewrite decide_False by lia.
  change (_triggered (merge o2 it)) with false. cbv iota.
  rewrite trg_data_update_silent by done.
  eexists; split; [reflexivity|]. unfold touch. cbn [data set_data].
  change (id (merge o2 it)) with (i_id it). rewrite lookup_insert_eq.
  cbn. split_and!; [done|done|done|]. rewrite !lookup_insert_eq. cbn. idtac.
  f_equal. exact Hj.
Qed.

(** X6: upserting the same item a second time (at any time) appends no
    event, leaves [dirlen] as it is and leaves the row's persisted columns
    as the first upsert stored them. *)
Theorem upsert_items_repeat now now' it d d1 :
  upsert_items now [it] d = Some d1 ->
  exists d2, upsert_items now' [it] d1 = Some d2 /\ event d2 = event d1 /\
    next_seq d2 = next_seq d1 /\ dirlen d2 = dirlen d1 /\
    (row_json <$> data d2 !! i_id it) = (row_json <$> data d1 !! i_id it).
Proof.
  cbn [upsert_items]. intros H.
  destruct (upsert_row now it d) as [d0|] eqn:E; cbn in H; [|discriminate]. injection H as ->.
  assert (Hagain : forall o2, data d1 !! i_id it = Some o2 -> row_json (merge o2 it) = row_json o2 ->
    exists d2, (upsert_row now' it d1 ≫= upsert_items now' []) = Some d2 /\ event d2 = event d1 /\
    next_seq d2 = next_seq d1 /\ dirlen d2 = dirlen d1 /\
    (row_json <$> data d2 !! i_id it) = (row_json <$> data d1 !! i_id it)).
  { intros o2 Ho Hj. destruct (upsert_row_again now' it d1 o2 Ho Hj) as (d2 & Hd2 & Hr).
    exists d2. by rewrite Hd2. }
  unfold upsert_row in E. destruct (data d !! i_id it) as [old|] eqn:Hold.
  - unfold update_row in E. case_decide as Hlt.
    + injection E as <-. exists d. unfold upsert_row. rewrite Hold. unfold update_row.
      rewrite decide_True by done. done.
    + change (_triggered (merge old it)) with false in E. cbv iota in E.
      apply (Hagain (bookkeep now (merge old it))); [|apply merge_twice].
      apply trg_data_update_data in E. rewrite E. cbn.
      change (id (merge old it)) with (i_id it). rewrite !lookup_insert_eq. done.
  - inv_bind E Ei. apply (Hagain r); [|by eapply merge_inserted].
    apply trg_data_insert_data in E. rewrite E. cbn. by rewrite lookup_insert_eq.
Qed.

(** X7: killing a row that is already dead appends no event and leaves
    [dirlen] as it is. *)
Theorem kill_dead_row_silent now i d r :
  data d !! i = Some r -> id r = i -> is_alive r = false ->
  exists d', kill_items now [i] d = Some d' /\ event d' = event d /\
    next_seq d' = next_seq d /\ dirlen d' = dirlen d.
Proof.
  intros Hr Hid Ha. cbn [kill_items]. unfold kill_row. rewrite Hr. unfold update_row.
  cbn [mtime]. rewrite decide_False by lia.
  destruct (_triggered r) eqn:Ht; cbn [_triggered].
  - eexists; split; [reflexivity|]. done.
  - rewrite trg_data_update_silent.
    + eexists; split; [reflexivity|]. unfold touch. cbn. rewrite lookup_insert_eq. done.
    + unfold row_json. cbn. by rewrite Hid, Ha.
Qed.

Import StoreLog StoreFrame.

(** X4: [kill_items] changes no [data] row whose id is not among the ids
    given. *)
Theorem kill_items_only_listed now ids d d' :
  kill_items now ids d = Some d' -> forall j, j ∉ ids -> data d' !! j = data d !! j.
Proof.
  revert d. induction ids as [|i ids IH]; intros d H j Hj; cbn [kill_items] in H.
  - by injection H as <-.
  - inv_bind H E. apply not_elem_of_cons in Hj as [Hji Hj].
    rewrite (IH _ H j Hj). exact (kill_row_frame _ _ _ _ E j Hji).
Qed.

(** X5: after [kill_items], every listed id that has a [data] row has
    [is_alive = 0]. *)
Theorem kill_items_marks_dead now ids d d' :
  kill_items now ids d = Some d' ->
  forall i, i ∈ ids -> is_Some (data d !! i) -> (is_alive <$> data d' !! i) = Some false.
Proof.
  assert (Hstay : forall ids d d' i, kill_items now ids d = Some d' ->
            (is_alive <$> data d !! i) = Some false -> (is_alive <$> data d' !! i) = Some false).
  { induction ids0 as [|j ids0 IH]; intros d0 d0' i H Hi; cbn [kill_items] in H.
    - by injection H as <-.
    - inv_bind H E. eapply IH; [exact H|]. by eapply kill_row_stays_dead. }
  revert d. induction ids as [|j ids IH]; intros d H i Hi Hs; cbn [kill_items] in H;
    [by apply elem_of_nil in Hi|].
  inv_bind H E. apply elem_of_cons in Hi as [->|Hi].
  - eapply Hstay; [exact H|]. by eapply kill_row_dead.
  - eapply IH; [exact H|exact Hi|]. by eapply kill_row_keys.
Qed.

(** X3: [upsert_items] changes no [data] row whose id is not among the
    ids of the items written. *)
Theorem upsert_items_only_listed now its d d' :
  upsert_items now its d = Some d' -> forall j, j ∉ i_id <$> its -> data d' !! j = data d !! j.
Proof.
  revert d. induction its as [|it its IH]; intros d H j Hj; cbn [upsert_items] in H.
  - by injection H as <-.
  - inv_bind H E. rewrite fmap_cons in Hj. apply not_elem_of_cons in Hj as [Hji Hj].
    rewrite (IH _ H j Hj). exact (upsert_row_frame _ _ _ _ E j Hji).
Qed.

(** X1: [upsert_items] and [kill_items] only append to the [event] table:
    the rows before the write stay as they are, the new rows carry the
    consecutive AUTOINCREMENT [_id] values from [next_seq], and the counter
    advances by the number of new rows; no row is appended while
    [disable_event] is set. *)
Theorem event_log_append_only :
  (forall now its d d', upsert_items now its d = Some d' -> appended d d') /\
  (forall now ids d d', kill_items now ids d = Some d' -> appended d d').
Proof. split; [exact upsert_items_appended|exact kill_items_appended]. Qed.

(** X2: with [disable_event] set, [upsert_items] and [kill_items] leave
    the [event] table and its AUTOINCREMENT counter unchanged. *)
Theorem disable_event_no_log :
  (forall now its d d', disable_event d = true -> upsert_items now its d = Some d' ->
     event d' = event d /\ next_seq d' = next_seq d /\ disable_event d' = true) /\
  (forall now ids d d', disable_event d = true -> kill_items now ids d = Some d' ->
     event d' = event d /\ next_seq d' = next_seq d /\ disable_event d' = true).
Proof.
  assert (H : forall d d', disable_event d = true -> appended d d' ->
            event d' = event d /\ next_seq d' = next_seq d /\ disable_event d' = true).
  { intros d d' Hd (Hd' & l & He & Hn & _ & Hz). rewrite (Hz Hd) in He, Hn.
    rewrite He, app_nil_r, Hn. split_and!; [done|cbn; lia|congruence]. }
  split; intros ???? Hd Hu; apply H; try done.
  - by eapply upsert_items_appended.
  - by eapply kill_items_appended.
Qed.

End StoreExtra.

Module IterdirFacts.
Import Reconcile ReconcileFacts.

Lemma fix_order_err items : forall seen dirs e,
  fix_order items seen dirs = inl e ->
  e = Busy /\ ~ (NoDup (a_id <$> items) /\ forall y, y ∈ items -> a_id y ∉ seen).
Proof.
  induction items as [|a items IH]; intros seen dirs e H; cbn in H; [discriminate|].
  case_decide as Hin.
  - injection H as <-. split; [done|]. intros [_ Hy]. apply (Hy a); [left|done].
  - assert (Hrec : forall dirs', fix_order items ({[a_id a]} ∪ seen) dirs' = inl e ->
      e = Busy /\ ~ (NoDup (a_id <$> a :: items) /\ forall y, y ∈ a :: items -> a_id y ∉ seen)).
    { intros dirs' Hr. apply IH in Hr as [He Hn]. split; [done|].
      intros [Hnd Hy]. apply Hn. rewrite fmap_cons in Hnd. apply NoDup_cons in Hnd as [Ha Hnd].
      split; [done|]. intros y Hy'. apply not_elem_of_union. split.
      - apply not_elem_of_singleton. intros Heq. apply Ha, list_elem_of_fmap. eauto.
      - apply Hy. by right. }
    destruct (a_is_dir a); [by eapply Hrec|].
    destruct (fix_order items _ _) as [e'|[out sf]] eqn:Er; [|discriminate].
    injection H as <-. by eapply Hrec.
Qed.

Lemma iterdir_fix_order pages count stream sf :
  iterdir pages = inr (count, stream, sf) ->
  fix_order (mjoin (Paginator.r_data <$> pages)) ∅ [] = inr (stream, sf) /\
  exists p0 ps, pages = p0 :: ps /\ count = Paginator.r_count p0.
Proof.
  unfold iterdir. destruct pages as [|p0 ps]; [discriminate|].
  destruct (fix_order _ ∅ []) as [|[out sf']]; [discriminate|].
  intros H. injection H as <- <- <-. eauto.
Qed.

(** X8: [iterdir] over a non-empty list of pages fails with [Busy]
    exactly when the same id is listed twice. *)
Theorem iterdir_busy_iff_duplicate pages :
  pages <> [] ->
  (iterdir pages = inl Busy <-> ~ NoDup (a_id <$> mjoin (Paginator.r_data <$> pages))).
Proof.
  intros Hne. unfold iterdir. destruct pages as [|p0 ps]; [done|].
  destruct (fix_order _ ∅ []) as [e|[out sf]] eqn:E.
  - apply fix_order_err in E as [-> Hn]. split; [|done]. intros _ Hnd.
    apply Hn. split; [done|]. intros y _. apply not_elem_of_empty.
  - apply fix_order_spec in E as (_ & _ & Hnd & _); [|intros d Hd; inversion Hd].
    split; [discriminate|]. by intros [].
Qed.

(** The listing as the two subsequences of directories and of files. *)
Definition dirs_of (l : list attr) : list attr := List.filter a_is_dir l.
Definition files_of (l : list attr) : list attr := List.filter (fun a => negb (a_is_dir a)) l.

Lemma dirs_of_app l1 l2 : dirs_of (l1 ++ l2) = dirs_of l1 ++ dirs_of l2.
Proof. apply List.filter_app. Qed.
Lemma files_of_app l1 l2 : files_of (l1 ++ l2) = files_of l1 ++ files_of l2.
Proof. apply List.filter_app. Qed.

Lemma dirs_of_all l : (forall d, d ∈ l -> a_is_dir d = true) -> dirs_of l = l /\ files_of l = [].
Proof.
  induction l as [|d l IH]; intros H; [done|]. cbn.
  rewrite (H d) by left. cbn. destruct IH as [IH1 IH2].
  - intros x Hx. apply H. by right.
  - unfold dirs_of, files_of in IH1, IH2. by rewrite IH1, IH2.
Qed.

Lemma fix_order_order items : forall seen dirs out sf,
  fix_order items seen dirs = inr (out, sf) ->
  (forall d, d ∈ dirs -> a_is_dir d = true) ->
  dirs_of (fst <$> out) = dirs ++ dirs_of items /\ files_of (fst <$> out) = files_of items.
Proof.
  induction items as [|a items IH]; intros seen dirs out sf H Hd; cbn in H.
  - injection H as <- <-. rewrite fmap_pair_fst. destruct (dirs_of_all _ Hd) as [-> ->].
    by rewrite app_nil_r.
  - case_decide; [discriminate|].
    destruct (a_is_dir a) eqn:Ea.
    + apply IH in H as [H1 H2].
      * cbn [dirs_of files_of List.filter]. rewrite Ea. cbn. fold (dirs_of items) (files_of items).
        rewrite H1, H2, <- app_assoc. done.
      * intros d Hd'. apply elem_of_app in Hd' as [Hd'|Hd']; [by apply Hd|].
        apply list_elem_of_singleton in Hd' as ->. done.
    + destruct (fix_order items _ (flush_dirs (a_mtime a) dirs).2) as [|[out' sf']] eqn:Er;
        [discriminate|].
      injection H as <- <-.
      pose proof (flush_dirs_app (a_mtime a) dirs) as Hfa.
      assert (Hd1 : forall d, d ∈ (flush_dirs (a_mtime a) dirs).1 -> a_is_dir d = true).
      { intros d Hd'. apply Hd. rewrite <- Hfa. apply elem_of_app. by left. }
      apply IH in Er as [H1 H2].
      2:{ intros d Hd'. apply Hd. rewrite <- Hfa. apply elem_of_app. by right. }
      rewrite fmap_app, fmap_pair_fst, fmap_cons. cbn [fst].
      rewrite dirs_of_app, files_of_app. destruct (dirs_of_all _ Hd1) as [-> ->].
      cbn [dirs_of files_of List.filter]. rewrite Ea. cbn.
      fold (dirs_of (fst <$> out')) (files_of (fst <$> out')) (dirs_of items) (files_of items).
      rewrite H1, H2, app_assoc, Hfa. done.
Qed.

(** X9: when [iterdir] succeeds, its count is the one of the first page,
    its stream is a permutation of the listed items that keeps the order of
    the directories among themselves and of the files among themselves,
    and its final [seen] set is the set of the listed ids. *)
Theorem iterdir_yields_listing pages count stream sf :
  iterdir pages = inr (count, stream, sf) ->
  (exists p0 ps, pages = p0 :: ps /\ count = Paginator.r_count p0) /\
  fst <$> stream ≡ₚ mjoin (Paginator.r_data <$> pages) /\
  dirs_of (fst <$> stream) = dirs_of (mjoin (Paginator.r_data <$> pages)) /\
  files_of (fst <$> stream) = files_of (mjoin (Paginator.r_data <$> pages)) /\
  (forall x, x ∈ sf <-> x ∈ a_id <$> mjoin (Paginator.r_data <$> pages)).
Proof.
  intros H. apply iterdir_fix_order in H as [Hf Hp]. split; [done|].
  pose proof Hf as Hf'.
  apply fix_order_spec in Hf as (Hperm & Hsf & _ & _ & _); [|intros d Hd; inversion Hd].
  apply fix_order_order in Hf' as [H1 H2]; [|intros d Hd; inversion Hd].
  split_and!; [done|done|done|]. intros x. rewrite Hsf. set_solver.
Qed.


Lemma SS_app_intro {A} (R : A -> A -> Prop) l1 l2 :
  StronglySorted R l1 -> StronglySorted R l2 ->
  (forall x y, x ∈ l1 -> y ∈ l2 -> R x y) -> StronglySorted R (l1 ++ l2).
Proof.
  induction l1 as [|x l1 IH]; intros H1 H2 Hc; [done|].
  apply StronglySorted_inv in H1 as [H1 Hx]. cbn. constructor.
  - apply IH; [done|done|]. intros a b Ha Hb. apply Hc; [by right|done].
  - apply Forall_app. split; [done|]. apply Forall_forall. intros y Hy. apply Hc; [left|done].
Qed.

Definition mle (a b : attr) : Prop := a_mtime b <= a_mtime a.
Definition pmle (p q : attr * gset Z) : Prop := a_mtime q.1 <= a_mtime p.1.

Lemma SS_pairs (l : list attr) (s : gset Z) :
  StronglySorted mle l -> StronglySorted pmle ((fun d => (d, s)) <$> l).
Proof.
  induction l as [|x l IH]; intros H; [constructor|].
  apply StronglySorted_inv in H as [H Hx]. cbn. constructor; [by apply IH|].
  apply Forall_forall. intros p Hp. apply list_elem_of_fmap in Hp as (y & -> & Hy).
  rewrite Forall_forall in Hx. by apply Hx.
Qed.

Lemma flush_fst_ge m dirs : forall x, x ∈ (flush_dirs m dirs).1 -> m <= a_mtime x.
Proof.
  induction dirs as [|d ds IH]; cbn; intros x Hx; [inversion Hx|].
  case_decide; cbn in Hx; [|inversion Hx].
  apply elem_of_cons in Hx as [->|Hx]; [done|by apply IH].
Qed.

Lemma flush_snd_lt m dirs : StronglySorted mle dirs ->
  forall y, y ∈ (flush_dirs m dirs).2 -> a_mtime y < m.
Proof.
  induction dirs as [|d ds IH]; cbn; intros Hs y Hy; [inversion Hy|].
  apply StronglySorted_inv in Hs as [Hs Hd].
  case_decide as Hle; cbn in Hy; [by apply IH|].
  apply elem_of_cons in Hy as [->|Hy]; [lia|].
  rewrite Forall_forall in Hd. specialize (Hd y Hy). unfold mle in Hd. lia.
Qed.

Lemma fix_order_dirs_prefix ds : forall rest seen dirs out sf,
  (forall d, d ∈ ds -> a_is_dir d = true) ->
  fix_order (ds ++ rest) seen dirs = inr (out, sf) ->
  exists seen', fix_order rest seen' (dirs ++ ds) = inr (out, sf).
Proof.
  induction ds as [|d ds IH]; intros rest seen dirs out sf Hd H.
  - exists seen. by rewrite app_nil_r.
  - cbn in H. case_decide; [discriminate|]. rewrite (Hd d) in H by left.
    apply IH in H as [seen' H]; [|intros x Hx; apply Hd; by right].
    exists seen'. by rewrite <- app_assoc in H.
Qed.

Lemma fix_order_files_sorted fs : forall seen dirs out sf,
  (forall f, f ∈ fs -> a_is_dir f = false) ->
  StronglySorted mle fs -> StronglySorted mle dirs ->
  fix_order fs seen dirs = inr (out, sf) ->
  StronglySorted pmle out /\ forall p, p ∈ out -> p.1 ∈ dirs \/ p.1 ∈ fs.
Proof.
  induction fs as [|a fs IH]; intros seen dirs out sf Hf Hsf Hsd H; cbn in H.
  - injection H as <- <-. split; [by apply SS_pairs|].
    intros p Hp. apply list_elem_of_fmap in Hp as (y & -> & Hy). by left.
  - case_decide; [discriminate|]. rewrite (Hf a) in H by left.
    destruct (fix_order fs _ (flush_dirs (a_mtime a) dirs).2) as [|[out' sf']] eqn:Er;
      [discriminate|].
    injection H as <- <-.
    pose proof (flush_dirs_app (a_mtime a) dirs) as Hfa.
    set (fr := flush_dirs (a_mtime a) dirs) in *.
    rewrite <- Hfa in Hsd.
    pose proof (SS_app _ _ _ Hsd) as [Hcross Hs2].
    assert (Hs1 : StronglySorted mle fr.1).
    { clear -Hsd. induction fr.1 as [|x l IH]; [constructor|].
      cbn in Hsd. apply StronglySorted_inv in Hsd as [H1 H2].
      constructor; [by apply IH|]. apply Forall_app in H2 as [H2 _]. done. }
    apply StronglySorted_inv in Hsf as [Hsf Ha].
    rewrite Forall_forall in Ha.
    apply IH in Er as [Hso Hin]; [|intros f Hf'; apply Hf; by right|done|done].
    assert (Hlt : forall y, y ∈ fr.2 -> a_mtime y < a_mtime a).
    { apply flush_snd_lt. by rewrite Hfa in Hsd. }
    split.
    + apply SS_app_intro; [by apply SS_pairs| |].
      * constructor; [done|]. apply Forall_forall. intros q Hq.
        destruct (Hin q Hq) as [Hq'|Hq']; unfold pmle; cbn.
        -- specialize (Hlt _ Hq'). lia.
        -- exact (Ha _ Hq').
      * intros p q Hp Hq. apply list_elem_of_fmap in Hp as (x & -> & Hx).
        pose proof (flush_fst_ge _ _ x Hx) as Hxa. unfold pmle. cbn.
        apply elem_of_cons in Hq as [->|Hq]; [done|].
        destruct (Hin q Hq) as [Hq'|Hq'].
        -- exact (Hcross x q.1 Hx Hq').
        -- specialize (Ha _ Hq'). unfold mle in Ha. lia.
    + intros p Hp. apply elem_of_app in Hp as [Hp|Hp].
      * apply list_elem_of_fmap in Hp as (x & -> & Hx). left. rewrite <- Hfa.
        apply elem_of_app. by left.
      * apply elem_of_cons in Hp as [->|Hp]; [right; left|].
        destruct (Hin p Hp) as [Hq|Hq].
        -- left. rewrite <- Hfa. apply elem_of_app. by right.
        -- right. by right.
Qed.

(** X10: when the listing sends its directories first and then its
    files, each part by non-increasing mtime, the stream of [iterdir] is in
    non-increasing mtime order. *)
Theorem iterdir_sorted_dirs_first pages count stream sf ds fs :
  iterdir pages = inr (count, stream, sf) ->
  mjoin (Paginator.r_data <$> pages) = ds ++ fs ->
  (forall d, d ∈ ds -> a_is_dir d = true) -> (forall f, f ∈ fs -> a_is_dir f = false) ->
  StronglySorted (fun a b : attr => a_mtime b <= a_mtime a) ds ->
  StronglySorted (fun a b : attr => a_mtime b <= a_mtime a) fs ->
  StronglySorted (fun a b : attr * gset Z => a_mtime b.1 <= a_mtime a.1) stream.
Proof.
  intros H Hl Hd Hf Hsd Hsf. apply iterdir_fix_order in H as [H _].
  rewrite Hl in H. apply fix_order_dirs_prefix in H as [seen' H]; [|done].
  apply fix_order_files_sorted in H as [Hs _]; [exact Hs|done|done|done].
Qed.


Lemma merge_loop_no_history count sf stream : forall n st,
  remains st = 0 ->
  merge_loop count n stream sf st = (Full, ups st ++ (fst <$> stream), rem st).
Proof.
  induction stream as [|[a s] stream IH]; intros n st H0; cbn.
  - rewrite app_nil_r. by rewrite decide_True.
  - rewrite decide_True by done. rewrite IH by done. cbn. by rewrite <- app_assoc.
Qed.

(** X11: when [diff_dir] makes a full pull ([full]), or
    [select_mtime_groups] reports no remaining history ([remains = 0]), and
    [iterdir] succeeds, it upserts every item of the stream in stream order
    and removes nothing. *)
Theorem diff_dir_upserts_all full pages remains groups count stream sf :
  iterdir pages = inr (count, stream, sf) -> (full = true \/ remains = 0) ->
  diff_dir full pages remains groups = inr (Full, fst <$> stream, []).
Proof.
  intros H Hc. unfold diff_dir. rewrite H.
  destruct full; [done|]. destruct Hc as [Hc| ->]; [discriminate|].
  unfold diff_dir_merge. rewrite decide_True by done.
  by rewrite merge_loop_no_history.
Qed.

End IterdirFacts.

Module RunFacts.
Import Orchestrator OrchestratorRun.

Definition act_id (a : action) : Z := match a with Reconcile _ i | Kill i => i end.

Definition grows (st st' : ostate) : Prop :=
  seen st ⊆ seen st' /\
  exists l, log st' = log st ++ l /\ Forall (fun a => act_id a ∉ seen st) l.

Lemma grows_refl st : grows st st.
Proof. split; [done|]. exists []. by rewrite app_nil_r. Qed.

Lemma grows_trans s1 s2 s3 : grows s1 s2 -> grows s2 s3 -> grows s1 s3.
Proof.
  intros (H1 & l1 & E1 & F1) (H2 & l2 & E2 & F2). split; [set_solver|].
  exists (l1 ++ l2). split; [by rewrite E2, E1, app_assoc|].
  apply Forall_app. split; [done|]. eapply Forall_impl; [exact F2|]. cbn. set_solver.
Qed.

Lemma step_grows logger thr rec probes recon st :
  grows st (state_of (step logger thr rec probes recon st)).
Proof.
  unfold step. destruct (queue st) as [|id q]; [apply grows_refl|].
  case_decide as Hin.
  - split; [done|]. exists []. cbn. by rewrite app_nil_r.
  - destruct (split_decision _ _ _ _) as [[split|]|].
    + destruct (negb logger); [split; [done|]; exists []; cbn; by rewrite app_nil_r|].
      destruct (recon id _) as [children| | | |]; cbn;
        (split; [set_solver|]);
        first [ eexists [_]; split; [reflexivity|by repeat constructor]
              | eexists [_; _]; split; [by rewrite <- app_assoc|by repeat constructor] ].
    + split; [cbn; set_solver|]. exists []. cbn. by rewrite app_nil_r.
    + split; [done|]. exists []. cbn. by rewrite app_nil_r.
Qed.

(** X12: over any number of iterations of the loop of [updatedb], the
    [seen] set only grows, the calls made are appended to the log, and no
    call ([updatedb_one], [updatedb_tree] or the [kill_items] of a vanished
    directory) is made for an id already in [seen] when the iterations
    start. *)
Theorem run_never_revisits logger thr rec probes recon fuel st :
  seen st ⊆ seen (state_of (run logger thr rec probes recon fuel st)) /\
  exists l, log (state_of (run logger thr rec probes recon fuel st)) = log st ++ l /\
    Forall (fun a => act_id a ∉ seen st) l.
Proof.
  enough (grows st (state_of (run logger thr rec probes recon fuel st))) by done.
  revert st. induction fuel as [|f IH]; intros st; cbn [run]; [apply grows_refl|].
  pose proof (step_grows logger thr rec probes recon st) as Hs.
  destruct (step logger thr rec probes recon st) as [st'|st'|st'] eqn:E; [|exact Hs|exact Hs].
  eapply grows_trans; [exact Hs|apply IH].
Qed.

End RunFacts.

Module PlainFacts.
Import Paginator.

Lemma plain_static_gen {A} (items : list A) cid ps : 0 < ps ->
  forall fuel k o lim, 0 <= o <= Z.of_nat (length items) -> 0 < lim ->
  (Z.to_nat (Z.of_nat (length items) - o) < fuel)%nat ->
  exists rs, plain_run (fun _ o lim => static_listing items cid lim o) cid ps fuel k o lim
             = Some (inr rs) /\
    take (Z.to_nat o) items ++ mjoin (r_data <$> rs) = items.
Proof.
  intros Hps fuel. induction fuel as [|f IH]; intros k o lim Ho Hl Hf; [lia|].
  cbn [plain_run]. unfold static_listing at 1. cbn [r_path_cid r_data r_count].
  rewrite Z.eqb_refl. cbn [negb andb].
  rewrite andb_false_r.
  set (r := static_listing items cid lim o).
  assert (Hc : r_count r = Z.of_nat (length items)) by reflexivity.
  assert (Hd : r_data r = take (Z.to_nat lim) (drop (Z.to_nat o) items)) by reflexivity.
  rewrite Hc, Hd, length_take, length_drop.
  destruct (Z.of_nat (length items) <=? _) eqn:Ec.
  - apply Z.leb_le in Ec. exists [r]. split; [reflexivity|].
    cbn [fmap list_fmap mjoin list_join]. rewrite Hd, !app_nil_r. rewrite (take_ge (drop _ _)) by (rewrite length_drop; lia).
    apply take_drop.
  - apply Z.leb_gt in Ec.
    destruct (IH (S k) (o + Z.of_nat (Nat.min (Z.to_nat lim) (length items - Z.to_nat o))) ps)
      as (rs & Hrs & Happ); [lia|lia|lia|].
    rewrite Hrs. eexists; split; [reflexivity|].
    cbn [fmap list_fmap mjoin list_join]. rewrite Hd, app_assoc, take_take_drop.
    replace (Z.to_nat o + Z.to_nat lim)%nat
      with (Z.to_nat (o + Z.of_nat (Nat.min (Z.to_nat lim) (length items - Z.to_nat o)))) by lia.
    exact Happ.
Qed.

(** X16: [iter_fs_files] over a listing that does not change while it is
    paged (first request with [first_page_size], the next ones with
    [page_size], both positive) ends normally, and its pages hold every
    item of the listing once, in order. *)
Theorem plain_run_static {A} (items : list A) cid fps ps :
  0 < fps -> 0 < ps ->
  exists rs, plain_run (fun _ o lim => static_listing items cid lim o) cid ps
               (S (length items)) 0 0 fps = Some (inr rs) /\
    mjoin (r_data <$> rs) = items.
Proof.
  intros Hf Hp. destruct (plain_static_gen items cid ps Hp (S (length items)) 0 0 fps)
    as (rs & H1 & H2); [lia|lia|lia|].
  exists rs. split; [exact H1|exact H2].
Qed.
End PlainFacts.

Module TopDirsFacts.
Import TopDirs.

Lemma digit_facts d s : 0 <= d <= 9 ->
  is_digit (ascii_of_nat (48 + Z.to_nat d)) = true /\
  Z.of_nat (nat_of_ascii (ascii_of_nat (48 + Z.to_nat d))) - 48 = d /\
  (1 <= d -> String.prefix "0" (String (ascii_of_nat (48 + Z.to_nat d)) s) = false).
Proof.
  intros Hd.
  assert (d = 0 \/ d = 1 \/ d = 2 \/ d = 3 \/ d = 4 \/ d = 5 \/ d = 6 \/ d = 7 \/ d = 8 \/ d = 9)
    as Hc by lia.
  repeat destruct Hc as [->|Hc]; try subst d; (split; [reflexivity|split; [reflexivity|]]); cbn; (lia || done).
Qed.

Lemma dec_from_app a s1 s2 : dec_from a (String.append s1 s2) = dec_from (dec_from a s1) s2.
Proof. revert a. induction s1 as [|c s1 IH]; intros a; cbn; [done|apply IH]. Qed.

Lemma lstrip_app s1 s2 : lstrip_digits s1 = "" -> lstrip_digits (String.append s1 s2) = lstrip_digits s2.
Proof.
  induction s1 as [|c s1 IH]; intros H; cbn [String.append lstrip_digits] in *; [done|].
  destruct (is_digit c) eqn:E; [|discriminate]. simpl. rewrite E. by apply IH.
Qed.

Lemma prefix0_app c s t : String.prefix "0" (String.append (String c s) t) = String.prefix "0" (String c s).
Proof.
  cbv beta iota delta [String.prefix String.append].
  destruct (ascii_dec "0" c); [destruct s; [destruct t|]|]; reflexivity.
Qed.

Lemma str_aux_spec fuel : forall n, 0 <= n -> (Z.to_nat n < fuel)%nat ->
  int_of_str (str_aux fuel n) = n /\ lstrip_digits (str_aux fuel n) = "" /\
  str_aux fuel n <> "" /\ (1 <= n -> String.prefix "0" (str_aux fuel n) = false).
Proof.
  induction fuel as [|f IH]; intros n Hn Hf; [lia|]. cbn [str_aux].
  destruct (n <? 10) eqn:E10.
  - apply Z.ltb_lt in E10. destruct (digit_facts n "" ltac:(lia)) as (Hdg & Hv & Hp).
    unfold int_of_str. cbn [dec_from lstrip_digits]. rewrite Hdg.
    split_and!; [lia|done|done|exact Hp].
  - apply Z.ltb_ge in E10.
    assert (Hq : 1 <= n / 10) by (apply Z.div_le_lower_bound; lia).
    assert (Hlt : n / 10 < n) by (apply Z.div_lt; lia).
    destruct (IH (n / 10)) as (Hv & Hs & Hne & Hp); [lia|lia|].
    assert (Hm : 0 <= n mod 10 <= 9) by (pose proof (Z.mod_pos_bound n 10); lia).
    destruct (digit_facts (n mod 10) "" Hm) as (Hdg & Hv' & _).
    split_and!.
    + unfold int_of_str in *. rewrite dec_from_app, Hv. cbn [dec_from]. rewrite Hv'.
      pose proof (Z.div_mod n 10). lia.
    + rewrite lstrip_app by done. cbn [lstrip_digits]. by rewrite Hdg.
    + destruct (str_aux f (n / 10)); [done|discriminate].
    + intros _. specialize (Hp Hq).
      destruct (str_aux f (n / 10)) as [|c s]; [done|]. rewrite prefix0_app. exact Hp.
Qed.

(** X13: [parse_top_iter] reads the decimal string of a non-negative
    integer as that integer, and sends every other string that starts with
    "0" (but is not "0") to the path lookup. *)
Theorem parse_top_iter_decimal (resolve : string -> option Z) :
  (forall n, 0 <= n -> parse_top_iter resolve (TStr (str_of_Z n)) = [n]) /\
  (forall s, s <> "0" -> String.prefix "0" s = true ->
     parse_top_iter resolve (TStr s) = match resolve s with Some i => [i] | None => [] end).
Proof.
  split.
  - intros n Hn. destruct (decide (n = 0)) as [->|Hn0]; [reflexivity|].
    unfold str_of_Z. destruct (str_aux_spec (S (Z.to_nat n)) n) as (Hv & Hs & Hne & Hp); [lia|lia|].
    specialize (Hp ltac:(lia)). set (s := str_aux _ n) in *.
    cbn [parse_top_iter]. rewrite bool_decide_eq_false_2.
    + unfold strip_digits. rewrite Hs, Hp. cbn [rstrip_digits String.eqb negb orb]. by rewrite Hv.
    + intros Hin. repeat (apply elem_of_cons in Hin as [Hin|Hin]; [rewrite Hin in Hs, Hp, Hne; done|]).
      by apply elem_of_nil in Hin.
  - intros s Hs0 Hp. cbn [parse_top_iter]. rewrite bool_decide_eq_false_2.
    + by rewrite Hp.
    + intros Hin. repeat (apply elem_of_cons in Hin as [Hin|Hin]; [subst s; done|]).
      by apply elem_of_nil in Hin.
Qed.

End TopDirsFacts.

Module GetFilesFacts.
Import GetFiles.

Definition max_requests (lim : Z) : nat := S (Z.to_nat ((lim - 1150 + 999) / 1000)).

(** X15: [get_files] makes at most [max_requests limit] requests: the
    limit drops by 1000 after each [DataError], never below 1150 and never
    above the initial limit, and the [DataError] is re-raised at the
    request made with limit [min limit 1150]. *)
Theorem get_files_bounded {B} (answer : nat -> Z -> option B) k lim :
  match get_files answer (max_requests lim) k lim with
  | GOk r k' lim' => (exists j, k' = S j /\ answer j lim' = Some r) /\
      (k < k' <= k + max_requests lim)%nat /\ Z.min lim 1150 <= lim' <= lim
  | GDataError k' lim' => k' = (k + max_requests lim)%nat /\ lim' = Z.min lim 1150
  | GStuck => False
  end.
Proof.
  remember (max_requests lim) as n eqn:En. revert k lim En.
  induction n as [|n IH]; intros k lim En; [unfold max_requests in En; lia|].
  cbn [get_files]. destruct (answer k lim) as [r|] eqn:Ea.
  - split; [eauto|]. split; [lia|]. lia.
  - destruct (lim <=? 1150) eqn:El.
    + apply Z.leb_le in El. unfold max_requests in En.
      assert ((lim - 1150 + 999) / 1000 < 1) by (apply Z.div_lt_upper_bound; lia).
      injection En as En. assert (n = 0%nat) as -> by lia.
      split; lia.
    + apply Z.leb_gt in El.
      set (lim2 := if lim - 1000 <? 1150 then 1150 else lim - 1000).
      assert (Hn : n = max_requests lim2).
      { unfold max_requests in *. unfold lim2. destruct (lim - 1000 <? 1150) eqn:E2.
        - apply Z.ltb_lt in E2.
          assert ((lim - 1150 + 999) / 1000 = 1) as Hq by (symmetry; apply Z.div_unique with (lim - 1151); lia).
          rewrite Hq in En. cbn in En. injection En as ->. reflexivity.
        - apply Z.ltb_ge in E2.
          assert ((lim - 1150 + 999) / 1000 = (lim - 1000 - 1150 + 999) / 1000 + 1) as Hq.
          { replace (lim - 1150 + 999) with ((lim - 1000 - 1150 + 999) + 1 * 1000) by lia.
            rewrite Z.div_add by lia. reflexivity. }
          assert (0 <= (lim - 1000 - 1150 + 999) / 1000) by (apply Z.div_pos; lia).
          rewrite Hq in En. injection En as En. rewrite Z2Nat.inj_add in En by lia.
          cbn in En. lia. }
      specialize (IH (S k) lim2 Hn).
      assert (Hb : 1150 <= lim2 <= lim) by (unfold lim2; destruct (_ <? _) eqn:E; [lia|apply Z.ltb_ge in E; lia]).
      destruct (get_files answer n (S k) lim2) as [r k' lim'|k' lim'|]; [| |done].
      * destruct IH as (Hj & Hk & Hl). split; [done|]. split; [lia|lia].
      * destruct IH as (Hk & Hl). split; [lia|]. rewrite Hl. lia.
Qed.

End GetFilesFacts.

Module TimeoutFacts.
Import Timeouts.

Lemma mro_walk_timeout pre post :
  Exception ∉ pre -> mro_walk (pre ++ TimeoutError :: post) = true.
Proof.
  induction pre as [|c pre IH]; intros Hn; cbn.
  - rewrite decide_False by done. reflexivity.
  - rewrite decide_False by (intros ->; apply Hn; left).
    destruct (contains _ _); [done|]. apply IH. intros H; apply Hn; by right.
Qed.

(** X14: the [is_timeouterror] of [updatedb.py] and the one of
    [fs_files.py] agree on every class whose MRO does not place
    [Exception] before [TimeoutError]. *)
Theorem is_timeouterror_agree mro :
  (forall pre post, mro = pre ++ TimeoutError :: post -> Exception ∉ pre) ->
  is_timeouterror mro = is_timeouterror_fs mro.
Proof.
  intros H. unfold is_timeouterror, is_timeouterror_fs.
  case_bool_decide as Hin; [|done].
  apply list_elem_of_split in Hin as (pre & post & ->).
  symmetry. apply mro_walk_timeout. by eapply H.
Qed.

End TimeoutFacts.

Module ExtraRuns.
Import Store Samples StoreLog StoreExtra.

(** X1 at file 2 inserted into the empty store, then killed. *)
Lemma event_log_append_only_witness :
  upsert_items 1 [file2_v1] (initdb false) = Some db_file2 /\
  appended (initdb false) db_file2 /\
  kill_items 2 [2] db_file2 = Some db_file2_dead /\ appended db_file2 db_file2_dead.
Proof.
  destruct event_log_append_only as [Hu Hk].
  split; [vm_compute; reflexivity|]. split.
  - apply (Hu 1 [file2_v1] (initdb false) db_file2). vm_compute. reflexivity.
  - split; [vm_compute; reflexivity|].
    apply (Hk 2 [2] db_file2 db_file2_dead). vm_compute. reflexivity.
Defined.

(** X2 on a store created with [disable_event]: file 2 inserted, then killed. *)
Lemma disable_event_no_log_witness :
  exists d1, upsert_items 1 [file2_v1] (initdb true) = Some d1 /\
    event d1 = [] /\ next_seq d1 = 1 /\ disable_event d1 = true /\
  exists d2, kill_items 2 [2] d1 = Some d2 /\
    event d2 = [] /\ next_seq d2 = 1 /\ disable_event d2 = true.
Proof.
  destruct disable_event_no_log as [Hu Hk].
  eexists. split; [vm_compute; reflexivity|].
  destruct (Hu 1 [file2_v1] (initdb true) _ eq_refl ltac:(vm_compute; reflexivity))
    as (E1 & N1 & D1).
  split; [exact E1|]. split; [exact N1|]. split; [exact D1|].
  eexists. split; [vm_compute; reflexivity|].
  destruct (Hk 2 [2] _ _ D1 ltac:(vm_compute; reflexivity)) as (E2 & N2 & D2).
  rewrite E2, N2. split_and!; [exact E1|exact N1|exact D2].
Defined.

(** X3: upserting file 4 into [db_file2] leaves the row of file 2. *)
Lemma upsert_items_only_listed_witness :
  upsert_items 2 [file4] db_file2 = Some db_file24 /\
  data db_file24 !! 2 = data db_file2 !! 2.
Proof.
  split; [vm_compute; reflexivity|].
  apply (upsert_items_only_listed 2 [file4] db_file2 db_file24);
    [vm_compute; reflexivity|].
  cbn. intros Hin. apply elem_of_cons in Hin as [Hin|Hin]; [discriminate|].
  by apply elem_of_nil in Hin.
Defined.

(** X4: killing file 4 of [db_file24] leaves the row of file 2. *)
Lemma kill_items_only_listed_witness :
  exists d', kill_items 3 [4] db_file24 = Some d' /\ data d' !! 2 = data db_file24 !! 2.
Proof.
  eexists. split; [vm_compute; reflexivity|].
  apply (kill_items_only_listed 3 [4] db_file24); [vm_compute; reflexivity|].
  intros Hin. apply elem_of_cons in Hin as [Hin|Hin]; [discriminate|].
  by apply elem_of_nil in Hin.
Defined.

(** X5: killing files 4 and 2 in [db_file24]. *)
Lemma kill_items_marks_dead_witness :
  exists d', kill_items 3 [4; 2] db_file24 = Some d' /\
    (is_alive <$> data d' !! 2) = Some false /\ (is_alive <$> data d' !! 4) = Some false.
Proof.
  eexists. split; [vm_compute; reflexivity|]. split.
  - apply (kill_items_marks_dead 3 [4; 2] db_file24); [vm_compute; reflexivity| |].
    + right. left.
    + vm_compute. eexists. reflexivity.
  - apply (kill_items_marks_dead 3 [4; 2] db_file24); [vm_compute; reflexivity| |].
    + left.
    + vm_compute. eexists. reflexivity.
Defined.

(** X6: file 2 upserted into the empty store at time 1, then again at time 5. *)
Lemma upsert_items_repeat_witness :
  exists d2, upsert_items 5 [file2_v1] db_file2 = Some d2 /\ event d2 = event db_file2 /\
    next_seq d2 = next_seq db_file2 /\ dirlen d2 = dirlen db_file2 /\
    (row_json <$> data d2 !! 2) = (row_json <$> data db_file2 !! 2).
Proof.
  apply (upsert_items_repeat 1 5 file2_v1 (initdb false) db_file2).
  vm_compute. reflexivity.
Defined.

(** X7: killing file 2 a second time. *)
Lemma kill_dead_row_silent_witness :
  exists r, data db_file2_dead !! 2 = Some r /\
  exists d', kill_items 3 [2] db_file2_dead = Some d' /\ event d' = event db_file2_dead /\
    next_seq d' = next_seq db_file2_dead /\ dirlen d' = dirlen db_file2_dead.
Proof.
  pose (r := match data db_file2_dead !! 2 with Some r => r | None => row2_v1 end).
  exists r. split; [vm_compute; reflexivity|].
  apply (kill_dead_row_silent 3 2 db_file2_dead r); [vm_compute; reflexivity|reflexivity|reflexivity].
Defined.

End ExtraRuns.

Module ExtraListings.
Import Reconcile Samples IterdirFacts.

(** X8 on a page listing file 1 twice. *)
Lemma iterdir_busy_iff_duplicate_witness :
  iterdir [Paginator.mkResp [mkAttr 1 10 false; mkAttr 1 10 false] 2 0 7] = inl Busy.
Proof.
  apply (iterdir_busy_iff_duplicate [Paginator.mkResp [mkAttr 1 10 false; mkAttr 1 10 false] 2 0 7]);
    [discriminate|].
  intros Hn. vm_compute in Hn. apply NoDup_cons in Hn as [Hn _]. apply Hn. left.
Defined.

(** X9 on [pages_mixed]. *)
Lemma iterdir_yields_listing_witness :
  fst <$> stream_mixed ≡ₚ mjoin (Paginator.r_data <$> pages_mixed) /\
  files_of (fst <$> stream_mixed) = files_of (mjoin (Paginator.r_data <$> pages_mixed)) /\
  (forall x, x ∈ sf_mixed <-> x ∈ a_id <$> mjoin (Paginator.r_data <$> pages_mixed)).
Proof.
  destruct (iterdir_yields_listing pages_mixed 6 stream_mixed sf_mixed) as (_ & Hp & _ & Hf & Hs);
    [vm_compute; reflexivity|].
  split_and!; [exact Hp|exact Hf|exact Hs].
Defined.

(** X10 on [pages_mixed]: directory 6, then files 1, 3, 7, 8 and 9 by
    decreasing mtime. *)
Lemma iterdir_sorted_dirs_first_witness :
  StronglySorted (fun a b : attr * gset Z => a_mtime b.1 <= a_mtime a.1) stream_mixed.
Proof.
  apply (iterdir_sorted_dirs_first pages_mixed 6 stream_mixed sf_mixed
           [mkAttr 6 95 true]
           [mkAttr 1 100 false; mkAttr 3 85 false; mkAttr 7 60 false;
            mkAttr 8 50 false; mkAttr 9 40 false]).
  - vm_compute. reflexivity.
  - reflexivity.
  - intros d Hd. apply list_elem_of_singleton in Hd as ->. reflexivity.
  - intros f Hf. repeat (apply elem_of_cons in Hf as [->|Hf]; [reflexivity|]).
    by apply elem_of_nil in Hf.
  - repeat (constructor || (cbn; lia)).
  - repeat (constructor || (cbn; lia)).
Defined.

(** X11: a full pull of [pages_mixed]. *)
Lemma diff_dir_upserts_all_witness :
  diff_dir true pages_mixed 4 groups_mixed = inr (Full, fst <$> stream_mixed, []).
Proof.
  apply (diff_dir_upserts_all true pages_mixed 4 groups_mixed 6 stream_mixed sf_mixed).
  - vm_compute. reflexivity.
  - left. reflexivity.
Defined.

End ExtraListings.

Module ExtraInputs.
Import TopDirs TopDirsFacts Timeouts TimeoutFacts Paginator PlainFacts.

(** X13 on the string "2024", and on "0123" with a lookup that finds id 7. *)
Lemma parse_top_iter_decimal_witness :
  parse_top_iter (fun _ => None) (TStr (str_of_Z 2024)) = [2024] /\
  parse_top_iter (fun _ => Some 7) (TStr "0123") = [7].
Proof.
  split.
  - destruct (parse_top_iter_decimal (fun _ => None)) as [H _]. apply H. lia.
  - destruct (parse_top_iter_decimal (fun _ => Some 7)) as [_ H].
    apply (H "0123"); [discriminate|reflexivity].
Defined.

(** X14 on the MRO of [TimeoutError]: [TimeoutError], [OSError],
    [Exception], [BaseException], [object]. *)
Lemma is_timeouterror_agree_witness :
  is_timeouterror [TimeoutError; mkCls 3 "OSError"; Exception; mkCls 4 "BaseException";
                   mkCls 5 "object"] =
  is_timeouterror_fs [TimeoutError; mkCls 3 "OSError"; Exception; mkCls 4 "BaseException";
                      mkCls 5 "object"].
Proof.
  apply is_timeouterror_agree. intros pre post H.
  destruct pre as [|c pre]; [apply not_elem_of_nil|].
  injection H as <- H. exfalso.
  assert (Hin : TimeoutError ∈ [mkCls 3 "OSError"; Exception; mkCls 4 "BaseException";
                                mkCls 5 "object"]) by (rewrite H; set_solver).
  repeat (apply elem_of_cons in Hin as [Hin|Hin]; [discriminate|]).
  by apply elem_of_nil in Hin.
Defined.

(** X16 on five items, pages of 2. *)
Lemma plain_run_static_witness :
  exists rs, plain_run (fun _ o lim => static_listing [1; 2; 3; 4; 5] 7 lim o) 7 2
               6 0 0 2 = Some (inr rs) /\
    mjoin (r_data <$> rs) = [1; 2; 3; 4; 5].
Proof. apply (plain_run_static [1; 2; 3; 4; 5] 7 2 2); lia. Defined.

End ExtraInputs.
